(** * FractalGenerator: the rendering core of [main.c]

    A shallow embedding of the Mandelbrot renderer: the pixel-to-plane
    mapping, the periodicity filter, the scalar escape-time loop, the SSE2
    two-lane loop, the colour map, the row loops, the row partition of the
    worker threads and the zoom/recenter state of the main loop.

    The C code computes on [double].  Every function below is written once,
    over an interface [Double] of the operations the code uses, and is run
    at two instances: [binary64] (the kernel's IEEE-754 primitive floats,
    round to nearest even, the arithmetic the compiled program performs)
    and [exact] (the real numbers, the arithmetic the algorithms are
    designed for).  What is said of the program is said at [binary64], or
    for every instance of the interface; a statement at [exact] is about
    the algorithm with rounding set aside, and says so.

    The file has two parts: the definitions, in the order of [main.c], and
    the properties. *)

From Stdlib Require Import ZArith List Bool Lia Lra Psatz.
From Stdlib Require Import Reals.
From Stdlib Require Import Floats.
From Stdlib Require Uint63.
Import ListNotations.

Local Open Scope Z_scope.

(** ** The arithmetic interface *)

Class Double (D : Type) : Type := {
  of_int : Z -> D;            (* conversion int -> double *)
  add : D -> D -> D;
  sub : D -> D -> D;
  mul : D -> D -> D;
  div : D -> D -> D;
  lt : D -> D -> bool;        (* a < b  *)
  ge : D -> D -> bool;        (* a >= b *)
  to_int : D -> Z             (* the cast (int)d: truncation toward zero *)
}.

(** [sin] of [math.h], which the colour map calls, is not part of the
    arithmetic: it is linked in. *)
Class Libm (D : Type) : Type := { sin : D -> D }.

Declare Scope dbl_scope.
Delimit Scope dbl_scope with dbl.
Infix "+" := add : dbl_scope.
Infix "-" := sub : dbl_scope.
Infix "*" := mul : dbl_scope.
Infix "/" := div : dbl_scope.
Infix "<?" := lt (at level 70, no associativity) : dbl_scope.
Infix ">=?" := ge (at level 70, no associativity) : dbl_scope.

(** A decimal literal [n / d] of the source, as the quotient of two exactly
    converted integers: at [binary64] the correctly rounded quotient is the
    double the C compiler reads the literal as (see [literals_binary64]). *)
Definition dec {D} `{Double D} (n d : Z) : D := (of_int n / of_int d)%dbl.

(** *** binary64 *)

Definition float_of_Z (z : Z) : float :=
  match z with
  | Z0 => PrimFloat.zero
  | Zpos _ => PrimFloat.of_uint63 (Uint63.of_Z z)
  | Zneg p => PrimFloat.opp (PrimFloat.of_uint63 (Uint63.of_Z (Zpos p)))
  end.

(** [(int)f]: the integer part of a finite double.  The cast is undefined
    in C for NaN, the infinities and values outside [int]; 0 stands for
    those here, and no claim below reaches them. *)
Definition float_to_Z (f : float) : Z :=
  match Prim2SF f with
  | S754_finite s m e =>
      let a := if (0 <=? e)%Z then (Zpos m * 2 ^ e)%Z
               else (Zpos m / 2 ^ (- e))%Z in
      if s then (- a)%Z else a
  | _ => 0%Z
  end.

#[export] Instance binary64 : Double float := {
  of_int := float_of_Z;
  add := PrimFloat.add;
  sub := PrimFloat.sub;
  mul := PrimFloat.mul;
  div := PrimFloat.div;
  lt := PrimFloat.ltb;
  ge := fun a b => PrimFloat.leb b a;
  to_int := float_to_Z
}.

(** *** exact real arithmetic *)

Definition Rltb (a b : R) : bool := if Rlt_dec a b then true else false.
Definition Rgeb (a b : R) : bool := if Rge_dec a b then true else false.

(** Truncation toward zero of a real number. *)
Definition Rtrunc (r : R) : Z :=
  if Rle_dec 0 r then Int_part r else (- Int_part (- r))%Z.

#[export] Instance exact : Double R := {
  of_int := IZR;
  add := Rplus;
  sub := Rminus;
  mul := Rmult;
  div := Rdiv;
  lt := Rltb;
  ge := Rgeb;
  to_int := Rtrunc
}.

#[export] Instance exact_libm : Libm R := { sin := Rtrigo_def.sin }.

(** ** Globals of [main.c] *)

Definition MAX_ITERATIONS : Z := 255.

Record Color : Type := mkColor { r : Z; g : Z; b : Z }.

(** Assignment of an [int] to an [unsigned char] field. *)
Definition to_uchar (z : Z) : Z := z mod 256.

Section Core.

Context {D : Type} {DD : Double D} {DL : Libm D}.
Local Open Scope dbl_scope.

(** ** ColorMapper: [get_color] *)

Definition get_color (n : Z) : Color :=
  if (n >=? MAX_ITERATIONS)%Z then mkColor 0 0 0
  else
    let x := of_int n in
    mkColor
      (to_uchar (to_int (sin (dec 1 10 * x) * of_int 127 + of_int 128)))
      (to_uchar (to_int (sin (dec 1 10 * x + of_int 2) * of_int 127 + of_int 128)))
      (to_uchar (to_int (sin (dec 1 10 * x + of_int 4) * of_int 127 + of_int 128))).

(** ** PeriodicityFilter: [periodicity_check] *)

Definition periodicity_check (cr ci : D) : bool :=
  if (cr + of_int 1) * (cr + of_int 1) + ci * ci <? dec 1 16 then true
  else
    let q := (cr - dec 1 4) * (cr - dec 1 4) + ci * ci in
    if q * (q + (cr - dec 1 4)) <? dec 1 4 * ci * ci then true
    else false.

(** ** ScalarKernel: the escape-time loop of the portable path

    [for (; n < max_iter; n++) { ... }] runs at most [max_iter - n] more
    times, which is what [fuel] counts. *)

Fixpoint escape_loop (fuel : nat) (cr ci zr zi : D) (n : Z) : Z :=
  match fuel with
  | O => n
  | S fuel' =>
      let zr2 := zr * zr in
      let zi2 := zi * zi in
      if zr2 + zi2 >=? of_int 4 then n
      else
        let zi' := of_int 2 * zr * zi + ci in
        let zr' := zr2 - zi2 + cr in
        escape_loop fuel' cr ci zr' zi' (n + 1)%Z
  end.

Definition escape_iterations (cr ci : D) (max_iter : Z) : Z :=
  escape_loop (Z.to_nat max_iter) cr ci (of_int 0) (of_int 0) 0.

(** ** VectorKernel: the SSE2 path

    A [__m128d] holds two doubles; [fst] is lane 0 (the low half).  A
    comparison yields, per lane, all ones or all zeros: a [mask128d] keeps
    one boolean per lane, and [mm_and_pd] of a mask with a vector keeps the
    lane's value where the mask is set and [+0.0] elsewhere. *)

Definition m128d : Type := (D * D)%type.
Definition mask128d : Type := (bool * bool)%type.

Definition mm_set1_pd (a : D) : m128d := (a, a).
Definition mm_set_pd (e1 e0 : D) : m128d := (e0, e1).
Definition mm_setzero_pd : m128d := (of_int 0, of_int 0).
Definition mm_mul_pd (a b : m128d) : m128d := (fst a * fst b, snd a * snd b).
Definition mm_add_pd (a b : m128d) : m128d := (fst a + fst b, snd a + snd b).
Definition mm_sub_pd (a b : m128d) : m128d := (fst a - fst b, snd a - snd b).
Definition mm_cmplt_pd (a b : m128d) : mask128d :=
  (fst a <? fst b, snd a <? snd b).
Definition mm_movemask_pd (m : mask128d) : Z :=
  ((if fst m then 1 else 0) + (if snd m then 2 else 0))%Z.
Definition mm_and_pd (m : mask128d) (a : m128d) : m128d :=
  (if fst m then fst a else of_int 0, if snd m then snd a else of_int 0).
Definition mm_storeu_pd (a : m128d) : D * D := a.

Definition fours : m128d := mm_set1_pd (of_int 4).
Definition ones : m128d := mm_set1_pd (of_int 1).
Definition two : m128d := mm_set1_pd (of_int 2).

(** [for (int i = 0; i < MAX_ITERATIONS; i++)]: [fuel] is the number of
    iterations left. *)
Fixpoint simd_loop (fuel : nat) (cr ci zr zi iterations : m128d) : m128d :=
  match fuel with
  | O => iterations
  | S fuel' =>
      let zr2 := mm_mul_pd zr zr in
      let zi2 := mm_mul_pd zi zi in
      let mag2 := mm_add_pd zr2 zi2 in
      let escape_mask := mm_cmplt_pd mag2 fours in
      if (mm_movemask_pd escape_mask =? 0)%Z then iterations
      else
        let iterations' :=
          mm_add_pd iterations (mm_and_pd escape_mask ones) in
        let zri := mm_mul_pd zr zi in
        let zr_temp := mm_add_pd (mm_sub_pd zr2 zi2) cr in
        let zi' := mm_add_pd (mm_mul_pd zri two) ci in
        simd_loop fuel' cr ci zr_temp zi' iterations'
  end.

(** The SIMD calculation of one batch, up to the unpacked [(int)n_values[k]]. *)
Definition simd_iterations (cr_base0 cr_base1 ci_base : D) : Z * Z :=
  let cr := mm_set_pd cr_base1 cr_base0 in
  let ci := mm_set1_pd ci_base in
  let n_values :=
    mm_storeu_pd
      (simd_loop (Z.to_nat MAX_ITERATIONS) cr ci
         mm_setzero_pd mm_setzero_pd mm_setzero_pd) in
  (to_int (fst n_values), to_int (snd n_values)).

(** ** ViewportMapper: the scales and base coordinates of [render_thread] *)

Section Frame.

Variables SCREEN_WIDTH SCREEN_HEIGHT : Z.
Variables center_r center_i zoom : D.

Definition aspect_ratio : D := of_int SCREEN_WIDTH / of_int SCREEN_HEIGHT.
Definition x_scale : D := (of_int 4 * aspect_ratio * zoom) / of_int SCREEN_WIDTH.
Definition y_scale : D := (of_int 4 * zoom) / of_int SCREEN_WIDTH.

Definition pixel_cr (x : Z) : D :=
  center_r + (of_int x - of_int SCREEN_WIDTH / of_int 2) * x_scale.
Definition pixel_ci (y : Z) : D :=
  center_i + (of_int y - of_int SCREEN_HEIGHT / of_int 2) * y_scale.

(** ** Pixel rows

    A row of the locked texture is a list of [Uint32] words.  A store
    outside the row is undefined behaviour in C: it is an error here. *)

Fixpoint store (row : list Z) (x : nat) (v : Z) : option (list Z) :=
  match row, x with
  | [], _ => None
  | _ :: tl, O => Some (v :: tl)
  | hd :: tl, S x' => option_map (cons hd) (store tl x' v)
  end.

Definition store_px (row : list Z) (x : Z) (v : Z) : option (list Z) :=
  if (x <? 0)%Z then None else store row (Z.to_nat x) v.

Definition Uint32 (z : Z) : Z := z mod 2 ^ 32.

(** [(0xFF << 24) | (color.r << 16) | (color.g << 8) | color.b] *)
Definition argb (c : Color) : Z :=
  Uint32 (Z.lor (Z.lor (Z.lor (Z.shiftl 255 24) (Z.shiftl (r c) 16))
                   (Z.shiftl (g c) 8)) (b c)).

Definition BLACK : Z := 4278190080.   (* 0xFF000000 *)

(** The inner loop of the SSE2 path, [for (x = 0; x < SCREEN_WIDTH; x += 2)].
    [x] grows by 2 at each turn, so [SCREEN_WIDTH] turns are more than the
    loop can take; running out of them would be an error. *)
Fixpoint simd_row (fuel : nat) (y x : Z) (row : list Z) : option (list Z) :=
  if (x <? SCREEN_WIDTH)%Z then
    match fuel with
    | O => None
    | S fuel' =>
        let ci_base := pixel_ci y in
        let cr_base0 := pixel_cr x in
        let cr_base1 := pixel_cr (x + 1) in
        if periodicity_check cr_base0 ci_base
           && periodicity_check cr_base1 ci_base then
          match store_px row x BLACK with
          | None => None
          | Some row1 =>
              match (if (x + 1 <? SCREEN_WIDTH)%Z
                     then store_px row1 (x + 1) BLACK else Some row1) with
              | None => None
              | Some row2 => simd_row fuel' y (x + 2) row2
              end
          end
        else
          let n_values := simd_iterations cr_base0 cr_base1 ci_base in
          let color1 := get_color (fst n_values) in
          match store_px row x (argb color1) with
          | None => None
          | Some row1 =>
              match (if (x + 1 <? SCREEN_WIDTH)%Z
                     then store_px row1 (x + 1) (argb (get_color (snd n_values)))
                     else Some row1) with
              | None => None
              | Some row2 => simd_row fuel' y (x + 2) row2
              end
          end
    end
  else Some row.

(** The inner loop of the portable path, [for (x = 0; x < SCREEN_WIDTH; x++)]. *)
Fixpoint scalar_row (fuel : nat) (y x : Z) (row : list Z) : option (list Z) :=
  if (x <? SCREEN_WIDTH)%Z then
    match fuel with
    | O => None
    | S fuel' =>
        let cr := pixel_cr x in
        let ci := pixel_ci y in
        if periodicity_check cr ci then
          match store_px row x BLACK with
          | None => None
          | Some row1 => scalar_row fuel' y (x + 1) row1
          end
        else
          let n := escape_iterations cr ci MAX_ITERATIONS in
          match store_px row x (argb (get_color n)) with
          | None => None
          | Some row1 => scalar_row fuel' y (x + 1) row1
          end
    end
  else Some row.

End Frame.

End Core.


(** ** FrameScheduler: the rows of each worker thread

    [SCREEN_HEIGHT / num_threads] is C's integer division, [Z.quot]. *)

Definition start_y (SCREEN_HEIGHT num_threads thread_id : Z) : Z :=
  (SCREEN_HEIGHT ÷ num_threads) * thread_id.
Definition end_y (SCREEN_HEIGHT num_threads thread_id : Z) : Z :=
  (SCREEN_HEIGHT ÷ num_threads) * (thread_id + 1).

(** The values [y] takes in [for (y = start_y; y < end_y; y++)]. *)
Definition thread_rows (SCREEN_HEIGHT num_threads thread_id : Z) : list Z :=
  let s := start_y SCREEN_HEIGHT num_threads thread_id in
  let e := end_y SCREEN_HEIGHT num_threads thread_id in
  map (fun k => s + Z.of_nat k) (seq 0 (Z.to_nat (e - s))).

(** [num_threads = SDL_GetCPUCount(); if (num_threads < 1) num_threads = 1;] *)
Definition clamp_threads (cpu_count : Z) : Z :=
  if cpu_count <? 1 then 1 else cpu_count.

(** The rows written in one frame: [main] starts the threads
    [i = 0 .. num_threads - 1] and joins them all. *)
Definition frame_rows (SCREEN_HEIGHT num_threads : Z) : list Z :=
  flat_map (fun i => thread_rows SCREEN_HEIGHT num_threads (Z.of_nat i))
           (seq 0 (Z.to_nat num_threads)).

Definition row_rendered (SCREEN_HEIGHT num_threads y : Z) : bool :=
  existsb (Z.eqb y) (frame_rows SCREEN_HEIGHT num_threads).

Section Threads.

Context {D : Type} {DD : Double D} {DL : Libm D}.

(** One pass of a row loop over row [y] of the texture. *)
Fixpoint update_row (f : list Z -> option (list Z)) (pixels : list (list Z))
    (y : nat) : option (list (list Z)) :=
  match pixels, y with
  | [], _ => None
  | row :: rest, O => option_map (fun row' => row' :: rest) (f row)
  | row :: rest, S y' => option_map (cons row) (update_row f rest y')
  end.

(** [render_thread], SSE2 build: the thread's rows, top to bottom. *)
Definition render_thread (SCREEN_WIDTH SCREEN_HEIGHT : Z)
    (thread_id num_threads : Z) (center_r center_i zoom : D)
    (pixels : list (list Z)) : option (list (list Z)) :=
  fold_left
    (fun acc y =>
       match acc with
       | None => None
       | Some px =>
           if (y <? 0)%Z then None
           else update_row
                  (simd_row SCREEN_WIDTH SCREEN_HEIGHT center_r center_i zoom
                     (Z.to_nat SCREEN_WIDTH) y 0)
                  px (Z.to_nat y)
       end)
    (thread_rows SCREEN_HEIGHT num_threads thread_id)
    (Some pixels).

(** ** ViewportController: the state of [main]'s loop *)

Record Viewport : Type := mkViewport {
  center_r : D;
  center_i : D;
  zoom : D;
  is_running : bool
}.

Inductive SDL_Event : Type :=
| SDL_QUIT
| SDL_MOUSEBUTTONDOWN (button x y : Z)
| SDL_OTHER.

Definition SDL_BUTTON_LEFT : Z := 1.

Local Open Scope dbl_scope.

Definition zoom_speed : D := dec 985 1000.

Definition initial_viewport : Viewport :=
  mkViewport (dec (-743643887037151) 1000000000000000)
             (dec 131825904205330 1000000000000000)
             (of_int 1) true.

(** The body of [while (SDL_PollEvent(&e) != 0)] for one event. *)
Definition handle_event (SCREEN_WIDTH SCREEN_HEIGHT : Z)
    (v : Viewport) (e : SDL_Event) : Viewport :=
  match e with
  | SDL_QUIT => mkViewport (center_r v) (center_i v) (zoom v) false
  | SDL_MOUSEBUTTONDOWN button x y =>
      if (button =? SDL_BUTTON_LEFT)%Z then
        let aspect_ratio := of_int SCREEN_WIDTH / of_int SCREEN_HEIGHT in
        let mouse_r :=
          center_r v
          + (of_int x - of_int SCREEN_WIDTH / of_int 2)
            * (of_int 4 * aspect_ratio * zoom v) / of_int SCREEN_WIDTH in
        let mouse_i :=
          center_i v
          + (of_int y - of_int SCREEN_HEIGHT / of_int 2)
            * (of_int 4 * zoom v) / of_int SCREEN_WIDTH in
        mkViewport mouse_r mouse_i (zoom v) (is_running v)
      else v
  | SDL_OTHER => v
  end.

(** One turn of the main loop up to the drawing: the pending events, then
    [zoom *= zoom_speed].  The viewport it returns is the one the threads
    of this frame receive. *)
Definition frame (SCREEN_WIDTH SCREEN_HEIGHT : Z)
    (v : Viewport) (events : list SDL_Event) : Viewport :=
  let v' := fold_left (handle_event SCREEN_WIDTH SCREEN_HEIGHT) events v in
  mkViewport (center_r v') (center_i v') (zoom v' * zoom_speed) (is_running v').

(** The main loop over the events of the successive frames; it is left
    when [is_running] is found cleared at the top of a turn. *)
Fixpoint main_loop (SCREEN_WIDTH SCREEN_HEIGHT : Z)
    (v : Viewport) (frames : list (list SDL_Event)) : Viewport :=
  match frames with
  | [] => v
  | events :: rest =>
      if is_running v
      then main_loop SCREEN_WIDTH SCREEN_HEIGHT
             (frame SCREEN_WIDTH SCREEN_HEIGHT v events) rest
      else v
  end.

End Threads.

(** ** Auxiliary definitions for the statements below *)

Section Statements.

Context {D : Type} {DD : Double D}.
Local Open Scope dbl_scope.

(** [zoom] after [n] more turns of the main loop, from [z]. *)
Fixpoint zoom_after (n : nat) (z : D) : D :=
  match n with
  | O => z
  | S n' => zoom_after n' (z * zoom_speed)
  end.

(** The ViewportMapper of the specification, in its words (section 4.1). *)
Definition ViewportMapper_spec (width height pixel_x pixel_y : Z)
    (center_r center_i zoom : D) : D * D :=
  let aspect := of_int width / of_int height in
  let x_scale := of_int 4 * aspect * zoom / of_int width in
  let y_scale := of_int 4 * zoom / of_int width in
  (center_r + (of_int pixel_x - of_int width / of_int 2) * x_scale,
   center_i + (of_int pixel_y - of_int height / of_int 2) * y_scale).

End Statements.

(** [zoom_decreases n z]: over the next [n] turns from [z], each product
    [zoom * zoom_speed] is positive and strictly below its [zoom]. *)
Fixpoint zoom_decreases (n : nat) (z : float) : bool :=
  match n with
  | O => true
  | S n' =>
      let z' := PrimFloat.mul z zoom_speed in
      PrimFloat.ltb z' z && PrimFloat.ltb 0 z' && zoom_decreases n' z'
  end.

(** The number of frames after which [zoom] no longer changes, and the
    value it keeps: 33 units of the smallest subnormal, [33 * 2^-1074]. *)
Definition stall_frame : nat := Z.to_nat 49016.
Definition stall_zoom : float := SF2Prim (S754_finite false 33 (-1074)).

(** The state of one lane before a turn of the SSE2 loop, against the
    result [res] of the scalar loop: either the lane is still iterating in
    step with the scalar loop, or the scalar loop has returned, the lane's
    count is that result and the lane's [z] is outside the disc for good. *)
Inductive lane_ok (fuel : nat) (n : Z) (cr ci zr zi count : R) (res : Z) : Prop :=
| lane_active :
    count = IZR n ->
    escape_loop (D := R) fuel cr ci zr zi n = res ->
    (cr * cr + ci * ci <= 4 \/ (zr = 0 /\ zi = 0) \/ (zr = cr /\ zi = ci))%R ->
    lane_ok fuel n cr ci zr zi count res
| lane_frozen :
    count = IZR res ->
    (4 <= zr * zr + zi * zi)%R ->
    (cr * cr + ci * ci <= zr * zr + zi * zi)%R ->
    lane_ok fuel n cr ci zr zi count res.

(** Checks over a grid of the 800x600 frame at the initial viewport, at
    binary64: [grid_forall step W H P] tests [P] at the pixels
    [(step * i, step * j)] of the frame. *)
Definition grid_forall (step : Z) (W H : Z) (P : Z -> Z -> bool) : bool :=
  forallb (fun j =>
    forallb (fun i => P (step * Z.of_nat i) (step * Z.of_nat j))
            (seq 0 (Z.to_nat (W / step))))
    (seq 0 (Z.to_nat (H / step))).

(** The SSE2 loop and the scalar loop agree on the batch at [(x, y)]. *)
Definition batch_agrees (x y : Z) : bool :=
  let v := initial_viewport (D := float) in
  let cr0 := pixel_cr 800 600 (center_r v) (zoom v) x in
  let cr1 := pixel_cr 800 600 (center_r v) (zoom v) (x + 1) in
  let ci := pixel_ci 800 600 (center_i v) (zoom v) y in
  let n := simd_iterations cr0 cr1 ci in
  (fst n =? escape_iterations cr0 ci MAX_ITERATIONS)
  && (snd n =? escape_iterations cr1 ci MAX_ITERATIONS).

(** A pixel that passes the periodicity filter runs to the iteration limit. *)
Definition filter_sound_at (x y : Z) : bool :=
  let v := initial_viewport (D := float) in
  let cr := pixel_cr 800 600 (center_r v) (zoom v) x in
  let ci := pixel_ci 800 600 (center_i v) (zoom v) y in
  implb (periodicity_check cr ci)
        (escape_iterations cr ci MAX_ITERATIONS =? MAX_ITERATIONS).

(** For the analysis of binary64 rounding.
    A record [mrs] is the integer [M] shifted right by [n] places when its
    mantissa is the quotient and its two bits tell whether the remainder
    is zero. *)
Definition shr_ok (M n : Z) (mrs : shr_record) : Prop :=
  shr_m mrs = M / 2 ^ n
  /\ (shr_r mrs || shr_s mrs = false <-> M mod 2 ^ n = 0).

(** ** Auxiliary definitions for the properties of the row loops, the
    threads and the main loop *)

(** A texture of [SCREEN_HEIGHT] rows of [SCREEN_WIDTH] pixels. *)
Definition texture_ok (SCREEN_WIDTH SCREEN_HEIGHT : Z) (pixels : list (list Z)) : Prop :=
  Z.of_nat (length pixels) = SCREEN_HEIGHT
  /\ Forall (fun row => Z.of_nat (length row) = SCREEN_WIDTH) pixels.

(** The four bytes of an ARGB8888 word. *)
Definition alpha_of (px : Z) : Z := Z.land (Z.shiftr px 24) 255.
Definition red_of (px : Z) : Z := Z.land (Z.shiftr px 16) 255.
Definition green_of (px : Z) : Z := Z.land (Z.shiftr px 8) 255.
Definition blue_of (px : Z) : Z := Z.land px 255.

Section RowValues.

Context {D : Type} {DD : Double D} {DL : Libm D}.
Variables SCREEN_WIDTH SCREEN_HEIGHT : Z.
Variables center_r center_i zoom : D.

(** The word the portable path stores at pixel [(x, y)]. *)
Definition scalar_pixel (y x : Z) : Z :=
  let cr := pixel_cr SCREEN_WIDTH SCREEN_HEIGHT center_r zoom x in
  let ci := pixel_ci SCREEN_WIDTH SCREEN_HEIGHT center_i zoom y in
  if periodicity_check cr ci then BLACK
  else argb (get_color (escape_iterations cr ci MAX_ITERATIONS)).

(** The word the SSE2 path stores at pixel [(x, y)]: the lane [x mod 2] of
    the batch that starts at the even column [x - x mod 2]. *)
Definition simd_pixel (y x : Z) : Z :=
  let x0 := x - x mod 2 in
  let ci_base := pixel_ci SCREEN_WIDTH SCREEN_HEIGHT center_i zoom y in
  let cr_base0 := pixel_cr SCREEN_WIDTH SCREEN_HEIGHT center_r zoom x0 in
  let cr_base1 := pixel_cr SCREEN_WIDTH SCREEN_HEIGHT center_r zoom (x0 + 1) in
  if periodicity_check cr_base0 ci_base && periodicity_check cr_base1 ci_base
  then BLACK
  else
    let n_values := simd_iterations cr_base0 cr_base1 ci_base in
    argb (get_color (if x mod 2 =? 0 then fst n_values else snd n_values)).

(** Row [y] as each path leaves it. *)
Definition simd_row_value (y : Z) : list Z :=
  map (fun k => simd_pixel y (Z.of_nat k)) (seq 0 (Z.to_nat SCREEN_WIDTH)).
Definition scalar_row_value (y : Z) : list Z :=
  map (fun k => scalar_pixel y (Z.of_nat k)) (seq 0 (Z.to_nat SCREEN_WIDTH)).

(** [render_thread], portable build: the same rows, with the row loop of
    the portable path. *)
Definition render_thread_portable (thread_id num_threads : Z)
    (pixels : list (list Z)) : option (list (list Z)) :=
  fold_left
    (fun acc y =>
       match acc with
       | None => None
       | Some px =>
           if (y <? 0)%Z then None
           else update_row
                  (scalar_row SCREEN_WIDTH SCREEN_HEIGHT center_r center_i zoom
                     (Z.to_nat SCREEN_WIDTH) y 0)
                  px (Z.to_nat y)
       end)
    (thread_rows SCREEN_HEIGHT num_threads thread_id)
    (Some pixels).

(** The pthread launch and join of [main]: the threads write disjoint rows
    of the locked texture, so their effect is that of running them one
    after the other, here in the order of their creation. *)
Definition render_frame (num_threads : Z) (pixels : list (list Z))
    : option (list (list Z)) :=
  fold_left
    (fun acc i =>
       match acc with
       | None => None
       | Some px =>
           render_thread SCREEN_WIDTH SCREEN_HEIGHT (Z.of_nat i) num_threads
             center_r center_i zoom px
       end)
    (seq 0 (Z.to_nat num_threads)) (Some pixels).

End RowValues.

(** The lane counts of the SSE2 loop are doubles of small integers: on the
    double of [k], adding [1.0] gives the double of [k + 1], adding [+0.0]
    changes nothing, and the cast gives back [k]. *)
Definition count_exact (k : Z) : bool :=
  PrimFloat.Leibniz.eqb (PrimFloat.add (float_of_Z k) (float_of_Z 1))
                        (float_of_Z (k + 1))
  && PrimFloat.Leibniz.eqb (PrimFloat.add (float_of_Z k) (float_of_Z 0))
                           (float_of_Z k)
  && (float_to_Z (float_of_Z k) =? k).

(** [mirrored a b]: the double [b] is [a] with the sign flipped, or both
    are zeros (of any signs). *)
Definition mirrored (a b : float) : Prop :=
  Prim2SF b = SFopp (Prim2SF a)
  \/ exists s s' : bool, Prim2SF a = S754_zero s /\ Prim2SF b = S754_zero s'.

(** ** A [sin] to run the colour map on

    [sin] comes from libm, and the statements about [get_color] take it as
    a parameter.  [sin_model] is an instance to evaluate them on: NaN on
    NaN and on the infinities, as IEEE 754 asks of [sin], and on a finite
    argument the Taylor polynomial of degree 17 of the argument reduced
    by a multiple of [2 pi], kept inside [[-1, 1]]. *)
Definition two_pi : float := 0x1.921fb54442d18p+2%float.

Definition sin_reduce (x : float) : float :=
  let half := if PrimFloat.ltb x 0 then (-0.5)%float else 0.5%float in
  let k := float_of_Z (float_to_Z (PrimFloat.add (PrimFloat.div x two_pi) half)) in
  PrimFloat.sub x (PrimFloat.mul k two_pi).

Definition sin_poly (x : float) : float :=
  let x2 := PrimFloat.mul x x in
  let step (c acc : float) := PrimFloat.add c (PrimFloat.mul x2 acc) in
  PrimFloat.mul x
    (fold_right step 0%float
       [dec 1 1; dec (-1) 6; dec 1 120; dec (-1) 5040; dec 1 362880;
        dec (-1) 39916800; dec 1 6227020800; dec (-1) 1307674368000;
        dec 1 355687428096000]).

Definition clamp_unit (y : float) : float :=
  if PrimFloat.leb y 1 then (if PrimFloat.leb (-1) y then y else (-1)%float)
  else 1%float.

Definition sin_model (x : float) : float :=
  if PrimFloat.is_finite x then clamp_unit (sin_poly (sin_reduce x))
  else PrimFloat.nan.

Definition model_libm : Libm float := Build_Libm float sin_model.

(** The three arguments that [get_color n] passes to [sin] are finite
    doubles. *)
Definition color_args_finite (n : Z) : bool :=
  let x := PrimFloat.mul (dec 1 10) (float_of_Z n) in
  PrimFloat.is_finite x
  && PrimFloat.is_finite (PrimFloat.add x (float_of_Z 2))
  && PrimFloat.is_finite (PrimFloat.add x (float_of_Z 4)).

(** * Properties *)

(** ** FrameScheduler *)

Section Scheduler.

Variables SCREEN_HEIGHT num_threads : Z.
Hypothesis height_pos : 0 < SCREEN_HEIGHT.
Hypothesis threads_pos : 1 <= num_threads.

Local Abbreviation rows_per_thread := (SCREEN_HEIGHT ÷ num_threads).

Lemma rows_per_thread_div : rows_per_thread = SCREEN_HEIGHT / num_threads.
Proof. apply Z.quot_div_nonneg; lia. Qed.

Lemma rows_per_thread_nonneg : 0 <= rows_per_thread.
Proof. rewrite rows_per_thread_div. apply Z.div_pos; lia. Qed.

Lemma thread_rows_spec (i y : Z) :
  0 <= i ->
  In y (thread_rows SCREEN_HEIGHT num_threads i) <->
  start_y SCREEN_HEIGHT num_threads i <= y < end_y SCREEN_HEIGHT num_threads i.
Proof.
  intros Hi. unfold thread_rows. rewrite in_map_iff.
  pose proof rows_per_thread_nonneg as Hq.
  unfold start_y, end_y in *.
  split.
  - intros (k & <- & Hk). apply in_seq in Hk. nia.
  - intros Hy. exists (Z.to_nat (y - rows_per_thread * i)). split; [nia|].
    apply in_seq. nia.
Qed.

(** Two different threads never share a row. *)
Lemma thread_rows_disjoint (i j y : Z) :
  0 <= i -> 0 <= j -> i <> j ->
  In y (thread_rows SCREEN_HEIGHT num_threads i) ->
  ~ In y (thread_rows SCREEN_HEIGHT num_threads j).
Proof.
  intros Hi Hj Hij Hy Hy'.
  apply thread_rows_spec in Hy; [|assumption].
  apply thread_rows_spec in Hy'; [|assumption].
  unfold start_y, end_y in *. nia.
Qed.

(** The rows of a frame are those below [num_threads * rows_per_thread]. *)
Lemma frame_rows_spec (y : Z) :
  In y (frame_rows SCREEN_HEIGHT num_threads) <->
  0 <= y < num_threads * (SCREEN_HEIGHT ÷ num_threads).
Proof.
  unfold frame_rows. rewrite in_flat_map.
  pose proof rows_per_thread_nonneg as Hq.
  split.
  - intros (i & Hi & Hy). apply in_seq in Hi.
    apply thread_rows_spec in Hy; [|lia].
    unfold start_y, end_y in Hy. nia.
  - intros Hy.
    assert (Hq0 : 0 < rows_per_thread) by nia.
    exists (Z.to_nat (y / rows_per_thread)).
    assert (0 <= y / rows_per_thread) by (apply Z.div_pos; lia).
    assert (y / rows_per_thread < num_threads).
    { apply Z.div_lt_upper_bound; lia. }
    split; [apply in_seq; lia|].
    apply thread_rows_spec; [lia|].
    unfold start_y, end_y.
    rewrite Z2Nat.id by lia.
    pose proof (Z.mul_div_le y rows_per_thread Hq0).
    pose proof (Z.mul_succ_div_gt y rows_per_thread Hq0). lia.
Qed.

(** The frame is rendered whole exactly when the threads divide the height. *)
Lemma frame_rows_full_iff :
  (forall y, 0 <= y < SCREEN_HEIGHT -> In y (frame_rows SCREEN_HEIGHT num_threads))
  <-> SCREEN_HEIGHT mod num_threads = 0.
Proof.
  pose proof rows_per_thread_div as Hd.
  pose proof (Z.div_mod SCREEN_HEIGHT num_threads ltac:(lia)) as Hdm.
  pose proof (Z.mod_pos_bound SCREEN_HEIGHT num_threads ltac:(lia)) as Hb.
  split.
  - intros Hall. specialize (Hall (SCREEN_HEIGHT - 1) ltac:(lia)).
    apply frame_rows_spec in Hall. rewrite Hd in Hall. lia.
  - intros Hm y Hy. apply frame_rows_spec. rewrite Hd. lia.
Qed.

End Scheduler.

(** C3, at a 1080-row display and 16 threads: [1080 / 16 = 67] rows per
    thread, so the sixteen threads render rows 0 to 1071 and none of them
    renders rows 1072 to 1079; at 600 rows and 4 threads the frame is
    rendered whole. *)
Theorem frame_rows_drop_remainder :
  frame_rows 1080 16 = map Z.of_nat (seq 0 1072)
  /\ row_rendered 1080 16 1079 = false
  /\ frame_rows 600 4 = map Z.of_nat (seq 0 600).
Proof. repeat split; vm_compute; reflexivity. Qed.

(** ** Row stores *)

Lemma store_length (row : list Z) (x : nat) (v : Z) :
  (x < length row)%nat ->
  exists row', store row x v = Some row' /\ length row' = length row.
Proof.
  revert x. induction row as [|hd tl IH]; intros x Hx; simpl in Hx; [lia|].
  destruct x as [|x]; simpl.
  - eexists; split; reflexivity.
  - destruct (IH x ltac:(lia)) as (row' & -> & Hl).
    eexists; split; [reflexivity|]. simpl. now rewrite Hl.
Qed.

Lemma store_px_length (row : list Z) (x v : Z) :
  0 <= x < Z.of_nat (length row) ->
  exists row', store_px row x v = Some row' /\ length row' = length row.
Proof.
  intros Hx. unfold store_px.
  destruct (Z.ltb_spec x 0); [lia|]. apply store_length. lia.
Qed.

(** A store that succeeds is a store inside the row. *)
Lemma store_px_inside (row row' : list Z) (x v : Z) :
  store_px row x v = Some row' -> 0 <= x < Z.of_nat (length row).
Proof.
  unfold store_px. destruct (Z.ltb_spec x 0); [discriminate|].
  intros Hs. split; [assumption|].
  assert (Hn : forall (l : list Z) n l', store l n v = Some l' -> (n < length l)%nat).
  { induction l as [|hd tl IH]; intros n l' Hl; simpl in Hl; [discriminate|].
    destruct n as [|n]; simpl; [lia|].
    destruct (store tl n v) eqn:E; [|discriminate].
    apply IH in E. lia. }
  apply Hn in Hs. lia.
Qed.

(** A store at or beyond the end of the row fails. *)
Lemma store_px_outside (row : list Z) (x v : Z) :
  Z.of_nat (length row) <= x -> store_px row x v = None.
Proof.
  intros Hx. destruct (store_px row x v) as [row'|] eqn:E; [|reflexivity].
  apply store_px_inside in E. lia.
Qed.

Section RowSafety.

Context {D : Type} {DD : Double D} {DL : Libm D}.
Variables SCREEN_WIDTH SCREEN_HEIGHT : Z.
Variables center_r center_i zoom : D.

Lemma simd_row_safe (fuel : nat) (y x : Z) (row : list Z) :
  0 <= x ->
  Z.of_nat (length row) = SCREEN_WIDTH ->
  SCREEN_WIDTH - x <= 2 * Z.of_nat fuel ->
  exists row',
    simd_row SCREEN_WIDTH SCREEN_HEIGHT center_r center_i zoom fuel y x row
    = Some row'
    /\ length row' = length row.
Proof.
  revert x row. induction fuel as [|fuel IH]; intros x row Hx Hlen Hfuel.
  - simpl. destruct (Z.ltb_spec x SCREEN_WIDTH); [lia|].
    eexists; split; reflexivity.
  - cbn [simd_row]. destruct (Z.ltb_spec x SCREEN_WIDTH) as [Hlt|Hge].
    2:{ eexists; split; reflexivity. }
    assert (Hstep : forall v0 v1,
      exists row2,
        match store_px row x v0 with
        | None => None
        | Some row1 =>
            match (if x + 1 <? SCREEN_WIDTH
                   then store_px row1 (x + 1) v1 else Some row1) with
            | None => None
            | Some row2 =>
                simd_row SCREEN_WIDTH SCREEN_HEIGHT center_r center_i zoom
                  fuel y (x + 2) row2
            end
        end = Some row2 /\ length row2 = length row).
    { intros v0 v1.
      destruct (store_px_length row x v0 ltac:(lia)) as (row1 & -> & Hl1).
      destruct (Z.ltb_spec (x + 1) SCREEN_WIDTH) as [Hlt1|Hge1].
      - destruct (store_px_length row1 (x + 1) v1 ltac:(lia)) as (row2 & -> & Hl2).
        destruct (IH (x + 2) row2 ltac:(lia) ltac:(lia) ltac:(lia))
          as (row3 & -> & Hl3).
        eexists; split; [reflexivity|]. congruence.
      - destruct (IH (x + 2) row1 ltac:(lia) ltac:(lia) ltac:(lia))
          as (row3 & -> & Hl3).
        eexists; split; [reflexivity|]. congruence. }
    destruct (periodicity_check _ _ && periodicity_check _ _); apply Hstep.
Qed.

(** The portable path stores one pixel per turn, at [x < SCREEN_WIDTH]. *)
Lemma scalar_row_safe (fuel : nat) (y x : Z) (row : list Z) :
  0 <= x ->
  Z.of_nat (length row) = SCREEN_WIDTH ->
  SCREEN_WIDTH - x <= Z.of_nat fuel ->
  exists row',
    scalar_row SCREEN_WIDTH SCREEN_HEIGHT center_r center_i zoom fuel y x row
    = Some row'
    /\ length row' = length row.
Proof.
  revert x row. induction fuel as [|fuel IH]; intros x row Hx Hlen Hfuel.
  - simpl. destruct (Z.ltb_spec x SCREEN_WIDTH); [lia|].
    eexists; split; reflexivity.
  - cbn [scalar_row]. destruct (Z.ltb_spec x SCREEN_WIDTH) as [Hlt|Hge].
    2:{ eexists; split; reflexivity. }
    assert (Hstep : forall v0,
      exists row2,
        match store_px row x v0 with
        | None => None
        | Some row1 =>
            scalar_row SCREEN_WIDTH SCREEN_HEIGHT center_r center_i zoom
              fuel y (x + 1) row1
        end = Some row2 /\ length row2 = length row).
    { intros v0.
      destruct (store_px_length row x v0 ltac:(lia)) as (row1 & -> & Hl1).
      destruct (IH (x + 1) row1 ltac:(lia) ltac:(lia) ltac:(lia))
        as (row2 & -> & Hl2).
      eexists; split; [reflexivity|]. congruence. }
    destruct (periodicity_check _ _); apply Hstep.
Qed.

End RowSafety.

(** C9: on a row of [SCREEN_WIDTH > 0] pixels, odd widths included, the
    inner loop of the SSE2 path performs every store inside the row (a
    store outside it would make [simd_row] fail) and returns the row with
    its length unchanged. *)
Theorem simd_row_in_bounds {D : Type} {DD : Double D} {DL : Libm D}
    (SCREEN_WIDTH SCREEN_HEIGHT : Z) (center_r center_i zoom : D)
    (y : Z) (row : list Z) :
  0 < SCREEN_WIDTH ->
  Z.of_nat (length row) = SCREEN_WIDTH ->
  exists row',
    simd_row SCREEN_WIDTH SCREEN_HEIGHT center_r center_i zoom
      (Z.to_nat SCREEN_WIDTH) y 0 row = Some row'
    /\ length row' = length row.
Proof.
  intros Hw Hlen. apply simd_row_safe; lia.
Qed.

Lemma simd_row_in_bounds_witness :
  exists row',
    simd_row (D := R) 3 2 0%R 0%R 1%R (Z.to_nat 3) 0 0 [0; 0; 0] = Some row'
    /\ length row' = length [0; 0; 0].
Proof.
  apply (simd_row_in_bounds (D := R) 3 2 0%R 0%R 1%R 0 [0; 0; 0]);
    [lia | reflexivity].
Defined.

(** ** binary64: facts about the primitive operations *)

Module B64.

Local Open Scope float_scope.

(** The decimal literals of [main.c], as the compiler reads them. *)
Lemma literals_binary64 :
  dec (D := float) 1 10 = 0x1.999999999999ap-4
  /\ dec (D := float) 1 16 = 0.0625
  /\ dec (D := float) 1 4 = 0.25
  /\ zoom_speed (D := float) = 0x1.f851eb851eb85p-1
  /\ of_int (D := float) 4 = 4 /\ of_int (D := float) 2 = 2
  /\ of_int (D := float) 1 = 1 /\ of_int (D := float) 0 = 0.
Proof. repeat split. Qed.

Lemma ltb_leb (x y : float) : (x <? y) = true -> (x <=? y) = true.
Proof.
  rewrite FloatAxioms.ltb_spec, FloatAxioms.leb_spec. unfold SFltb, SFleb.
  destruct (SFcompare (Prim2SF x) (Prim2SF y)) as [[| |]|]; congruence.
Qed.

(** [0 + x] is [x], except that [0 + (-0)] is [+0]: the squares agree. *)
Lemma add_zero_sq (x : float) : (0 + x) * (0 + x) = x * x.
Proof.
  apply Prim2SF_inj. rewrite !mul_spec, add_spec.
  change (Prim2SF 0) with (S754_zero false).
  destruct (Prim2SF x) as [[|]|[|]| |s m e]; reflexivity.
Qed.

End B64.

(** ** binary64: the rounding of the specification, on integers *)

Module Rounding.

Lemma fexp_eq (x : Z) : fexp prec emax x = Z.max (x - 53) (-1074).
Proof. reflexivity. Qed.

Lemma digits2_pos_bounds (p : positive) :
  2 ^ (Zpos (digits2_pos p) - 1) <= Zpos p < 2 ^ Zpos (digits2_pos p).
Proof.
  induction p as [p IH|p IH|]; cbn [digits2_pos].
  - rewrite Pos2Z.inj_succ.
    replace (Z.succ (Zpos (digits2_pos p)) - 1) with (Z.succ (Zpos (digits2_pos p) - 1)) by lia.
    rewrite !Z.pow_succ_r by lia. lia.
  - rewrite Pos2Z.inj_succ.
    replace (Z.succ (Zpos (digits2_pos p)) - 1) with (Z.succ (Zpos (digits2_pos p) - 1)) by lia.
    rewrite !Z.pow_succ_r by lia. lia.
  - cbn. lia.
Qed.

Lemma shr_ok_init (M : Z) : shr_ok M 0 (shr_record_of_loc M loc_Exact).
Proof.
  split; cbn.
  - now rewrite Z.div_1_r.
  - rewrite Z.mod_1_r. tauto.
Qed.

Lemma shr_1_ok (M n : Z) (mrs : shr_record) :
  0 <= M -> 0 <= n -> shr_ok M n mrs -> shr_ok M (n + 1) (shr_1 mrs).
Proof.
  intros HM Hn [Hm Hrs].
  assert (Hp : 0 < 2 ^ n) by (apply Z.pow_pos_nonneg; lia).
  assert (Hq : 0 <= M / 2 ^ n) by (apply Z.div_pos; lia).
  assert (Hdiv : M / 2 ^ (n + 1) = M / 2 ^ n / 2).
  { rewrite Z.pow_add_r, Z.pow_1_r by lia. rewrite Z.div_div by lia. reflexivity. }
  assert (Hmod : M mod 2 ^ (n + 1) = M mod 2 ^ n + 2 ^ n * ((M / 2 ^ n) mod 2)).
  { rewrite Z.pow_add_r, Z.pow_1_r by lia. apply Z.rem_mul_r; lia. }
  pose proof (Z.mod_pos_bound M (2 ^ n) Hp) as Hb.
  destruct mrs as [m r s]. cbn [shr_m shr_r shr_s] in *.
  unfold shr_ok. rewrite Hdiv, Hmod, <- Hm.
  destruct m as [|[p|p|]|p]; cbn [shr_1 shr_m shr_r shr_s]; try lia.
  - (* 0 *)
    change (0 / 2) with 0. change (0 mod 2) with 0.
    split; [reflexivity|]. cbn [orb]. rewrite Hrs. lia.
  - (* 2p+1 *)
    assert (E : Z.pos p~1 mod 2 = 1)
      by (symmetry; apply Z.mod_unique with (Zpos p); lia).
    split; [apply Z.div_unique with 1; lia|].
    rewrite E. cbn [orb]. split; [discriminate | nia].
  - (* 2p *)
    assert (E : Z.pos p~0 mod 2 = 0)
      by (symmetry; apply Z.mod_unique with (Zpos p); lia).
    split; [apply Z.div_unique with 0; lia|].
    rewrite E. cbn [orb]. rewrite Hrs. lia.
  - (* 1 *)
    change (1 / 2) with 0. change (1 mod 2) with 1.
    split; [reflexivity|]. cbn [orb]. split; [discriminate | nia].
Qed.

Lemma iter_pos_shr_ok (p : positive) :
  forall (M n : Z) (mrs : shr_record),
    0 <= M -> 0 <= n -> shr_ok M n mrs ->
    shr_ok M (n + Zpos p) (iter_pos shr_1 p mrs).
Proof.
  induction p as [p IH|p IH|]; intros M n mrs HM Hn Hok; cbn [iter_pos].
  - replace (n + Zpos p~1) with (n + 1 + Zpos p + Zpos p) by lia.
    apply IH; [lia | lia |]. apply IH; [lia | lia |]. now apply shr_1_ok.
  - replace (n + Zpos p~0) with (n + Zpos p + Zpos p) by lia.
    apply IH; [lia | lia |]. now apply IH.
  - now apply shr_1_ok.
Qed.

Lemma round_nearest_even_bounds (mrs : shr_record) :
  let m' := round_nearest_even (shr_m mrs) (loc_of_shr_record mrs) in
  shr_m mrs <= m' <= shr_m mrs + 1
  /\ (shr_r mrs || shr_s mrs = false -> m' = shr_m mrs).
Proof.
  destruct mrs as [m [|] [|]]; cbn; try destruct (Z.even m); split; try lia;
    intros; try discriminate; reflexivity.
Qed.


Lemma shr_spec (M e n : Z) :
  0 <= M ->
  exists mrs,
    shr (shr_record_of_loc M loc_Exact) e n = (mrs, e + Z.max 0 n)
    /\ shr_ok M (Z.max 0 n) mrs.
Proof.
  intros HM. destruct n as [|p|p]; cbn [shr].
  - eexists; split; [rewrite Z.add_0_r; reflexivity | apply shr_ok_init].
  - eexists; split; [reflexivity|].
    replace (Z.max 0 (Zpos p)) with (0 + Zpos p) by lia.
    apply iter_pos_shr_ok; [lia | lia | apply shr_ok_init].
  - eexists; split; [rewrite Z.add_0_r; reflexivity | apply shr_ok_init].
Qed.

(** One shift of [k] places, from exponent [e] to [e + k <= 0], followed by
    a rounding to a neighbour [m'] of the quotient, keeps the value between
    any two integers [L] and [H] that bound it. *)
Lemma stage_bounds (M e k : Z) (mrs : shr_record) (m' H : Z) :
  0 <= M -> 0 <= k -> e + k <= 0 ->
  shr_ok M k mrs ->
  shr_m mrs <= m' <= shr_m mrs + 1 ->
  (shr_r mrs || shr_s mrs = false -> m' = shr_m mrs) ->
  M <= H * 2 ^ (- e) ->
  m' <= H * 2 ^ (- (e + k))
  /\ (forall L, L * 2 ^ (- e) <= M -> L * 2 ^ (- (e + k)) <= m').
Proof.
  intros HM Hk Hek [Hm Hex] Hm' Hexact HH.
  assert (Hpow : 2 ^ (- e) = 2 ^ (- (e + k)) * 2 ^ k).
  { rewrite <- Z.pow_add_r by lia. f_equal. lia. }
  assert (HP : 0 < 2 ^ k) by (apply Z.pow_pos_nonneg; lia).
  assert (Hg : 0 < 2 ^ (- (e + k))) by (apply Z.pow_pos_nonneg; lia).
  set (P := 2 ^ k) in *. set (G := 2 ^ (- (e + k))) in *.
  pose proof (Z.div_mod M P ltac:(lia)) as Hdm.
  pose proof (Z.mod_pos_bound M P HP) as Hmb.
  rewrite Hpow in HH.
  split.
  - assert (Hq : M / P <= H * G).
    { apply Z.div_le_upper_bound; [lia | nia]. }
    destruct (Z.eq_dec m' (shr_m mrs)) as [E|NE]; [lia|].
    assert (Hne : M mod P <> 0).
    { intros E0. apply NE, Hexact, Hex, E0. }
    assert (M / P <> H * G) by nia.
    lia.
  - intros L HL. rewrite Hpow in HL.
    assert (L * G <= M / P).
    { apply Z.div_le_lower_bound; [lia | nia]. }
    lia.
Qed.

Lemma fexp_nonpos (M e H : Z) :
  0 <= M -> e <= 0 -> H < 2 ^ 53 -> M <= H * 2 ^ (- e) ->
  fexp prec emax (Zdigits2 M + e) <= 0.
Proof.
  intros HM He HH Hle. rewrite fexp_eq.
  destruct M as [|p|p]; [cbn [Zdigits2]; lia | | lia].
  cbn [Zdigits2].
  destruct (digits2_pos_bounds p) as [Hlo _].
  assert (Hg : 0 < 2 ^ (- e)) by (apply Z.pow_pos_nonneg; lia).
  assert (Hlt : 2 ^ (Zpos (digits2_pos p) - 1) < 2 ^ (53 - e)).
  { replace (53 - e) with (53 + - e) by lia. rewrite Z.pow_add_r by lia. nia. }
  apply Z.pow_lt_mono_r_iff in Hlt; lia.
Qed.

(** The rounding of the positive integer [mx] at exponent [ex <= 0], whose
    value [mx * 2^ex] is at most the integer [H < 2^53]: the result is a
    zero or a finite number of the same sign, of value at most [H], and of
    value at least every integer [L] below the exact value. *)
Lemma binary_round_aux_bounds (sx : bool) (mx : positive) (ex H : Z) :
  ex <= 0 -> 0 <= H < 2 ^ 53 -> Zpos mx <= H * 2 ^ (- ex) ->
  match binary_round_aux prec emax sx (Zpos mx) ex loc_Exact with
  | S754_zero s => s = sx /\ forall L, L * 2 ^ (- ex) <= Zpos mx -> L <= 0
  | S754_finite s m e =>
      s = sx /\ e <= 0 /\ Zpos m <= H * 2 ^ (- e)
      /\ forall L, L * 2 ^ (- ex) <= Zpos mx -> L * 2 ^ (- e) <= Zpos m
  | _ => False
  end.
Proof.
  intros Hex HH Hle.
  unfold binary_round_aux, shr_fexp.
  destruct (shr_spec (Zpos mx) ex (fexp prec emax (Zdigits2 (Zpos mx) + ex) - ex)
              ltac:(lia)) as (mrs1 & -> & Hok1).
  set (k1 := Z.max 0 (fexp prec emax (Zdigits2 (Zpos mx) + ex) - ex)) in *.
  pose proof (fexp_nonpos (Zpos mx) ex H ltac:(lia) Hex ltac:(lia) Hle) as Hf1.
  assert (Hk1 : 0 <= k1 /\ ex + k1 <= 0) by lia.
  destruct (round_nearest_even_bounds mrs1) as [Hr1 Hr1x].
  set (m2 := round_nearest_even (shr_m mrs1) (loc_of_shr_record mrs1)) in *.
  destruct (stage_bounds (Zpos mx) ex k1 mrs1 m2 H ltac:(lia) ltac:(lia)
              ltac:(lia) Hok1 Hr1 Hr1x Hle) as [Hup1 Hlo1].
  assert (Hm2 : 0 <= m2).
  { destruct Hok1 as [E _]. assert (0 <= Zpos mx / 2 ^ k1) by (apply Z.div_pos; [lia|apply Z.pow_pos_nonneg; lia]). lia. }
  destruct (shr_spec m2 (ex + k1) (fexp prec emax (Zdigits2 m2 + (ex + k1)) - (ex + k1))
              Hm2) as (mrs2 & -> & Hok2).
  set (k2 := Z.max 0 (fexp prec emax (Zdigits2 m2 + (ex + k1)) - (ex + k1))) in *.
  pose proof (fexp_nonpos m2 (ex + k1) H Hm2 ltac:(lia) ltac:(lia) Hup1) as Hf2.
  assert (Hk2 : 0 <= k2 /\ ex + k1 + k2 <= 0) by lia.
  destruct (stage_bounds m2 (ex + k1) k2 mrs2 (shr_m mrs2) H Hm2 ltac:(lia)
              ltac:(lia) Hok2 ltac:(lia) ltac:(reflexivity) Hup1) as [Hup2 Hlo2].
  assert (Hm3 : 0 <= shr_m mrs2).
  { destruct Hok2 as [E _]. rewrite E. apply Z.div_pos; [lia|apply Z.pow_pos_nonneg; lia]. }
  assert (Hg2 : 0 < 2 ^ (- (ex + k1 + k2))) by (apply Z.pow_pos_nonneg; lia).
  destruct (shr_m mrs2) as [|m3|m3] eqn:E3; [| |lia].
  - split; [reflexivity|]. intros L HL.
    specialize (Hlo2 _ (Hlo1 _ HL)). nia.
  - destruct (Z.leb_spec (ex + k1 + k2) (emax - prec)) as [_|Hbad];
      [|unfold emax, prec in Hbad; lia].
    split; [reflexivity|]. split; [lia|]. split; [exact Hup2|].
    intros L HL. exact (Hlo2 _ (Hlo1 _ HL)).
Qed.


Lemma pos_iter_xO (mx d : positive) :
  Zpos (Pos.iter xO mx d) = Zpos mx * 2 ^ Zpos d.
Proof.
  induction d as [|d IH] using Pos.peano_ind.
  - cbn. lia.
  - rewrite Pos.iter_succ, Pos2Z.inj_xO, IH, Pos2Z.inj_succ, Z.pow_succ_r by lia.
    lia.
Qed.

Lemma shl_align_spec (mx : positive) (ex ex' : Z) :
  let '(mz, ez) := shl_align mx ex ex' in
  ez = Z.min ex ex' /\ Zpos mz = Zpos mx * 2 ^ (ex - ez).
Proof.
  unfold shl_align. destruct (ex' - ex) as [|d|d] eqn:E.
  - split; [lia|]. replace (ex - ex) with 0 by lia. lia.
  - split; [lia|]. replace (ex - ex) with 0 by lia. lia.
  - split; [lia|]. rewrite pos_iter_xO. f_equal. f_equal. lia.
Qed.

Lemma SFleb_finite_pos (m1 m2 : positive) (e1 e2 : Z) :
  SFleb (S754_finite false m1 e1) (S754_finite false m2 e2) = true ->
  e1 < e2 \/ (e1 = e2 /\ Zpos m1 <= Zpos m2).
Proof.
  unfold SFleb, SFcompare.
  destruct (Z.compare_spec e1 e2) as [E|E|E]; [|left; lia|discriminate].
  change (Pos.compare_cont Eq m1 m2) with (Pos.compare m1 m2).
  destruct (Pos.compare_spec m1 m2) as [E'|E'|E']; try discriminate; intros _;
    right; split; try assumption.
  - subst m2. apply Z.le_refl.
  - apply Z.lt_le_incl. exact E'.
Qed.

Lemma SFleb_finite_neg (m1 m2 : positive) (e1 e2 : Z) :
  SFleb (S754_finite true m1 e1) (S754_finite true m2 e2) = true ->
  e2 < e1 \/ (e1 = e2 /\ Zpos m2 <= Zpos m1).
Proof.
  unfold SFleb, SFcompare.
  destruct (Z.compare_spec e1 e2) as [E|E|E]; [|discriminate|left; lia].
  change (Pos.compare_cont Eq m1 m2) with (Pos.compare m1 m2).
  destruct (Pos.compare_spec m1 m2) as [E'|E'|E']; try discriminate; intros _;
    right; split; try assumption.
  - subst m2. apply Z.le_refl.
  - apply Z.lt_le_incl. exact E'.
Qed.

(** A double between -1 and 1 is a zero or a finite number of exponent at
    most -52 and of magnitude at most 1. *)
Lemma unit_float (s : float) :
  PrimFloat.leb (-1) s = true -> PrimFloat.leb s 1 = true ->
  match Prim2SF s with
  | S754_zero _ => True
  | S754_finite _ m e => e <= -52 /\ Zpos m <= 2 ^ (- e)
  | _ => False
  end.
Proof.
  intros Hlo Hhi. rewrite FloatAxioms.leb_spec in Hlo, Hhi.
  change (Prim2SF 1) with (S754_finite false 4503599627370496 (-52)) in Hhi.
  change (Prim2SF (-1)) with (S754_finite true 4503599627370496 (-52)) in Hlo.
  pose proof (Prim2SF_valid s) as Hv.
  destruct (Prim2SF s) as [sg|sg| |sg m e].
  - exact I.
  - destruct sg; discriminate.
  - discriminate.
  - unfold SpecFloat.valid_binary, bounded, canonical_mantissa in Hv.
    apply andb_prop in Hv. destruct Hv as [Hc _].
    apply Z.eqb_eq in Hc. rewrite fexp_eq in Hc.
    destruct (digits2_pos_bounds m) as [_ Hm].
    assert (Hd : Zpos (digits2_pos m) <= 53) by lia.
    assert (Hm53 : Zpos m < 2 ^ 53).
    { eapply Z.lt_le_trans; [exact Hm|]. apply Z.pow_le_mono_r; lia. }
    assert (Hcase : e < -52 \/ (e = -52 /\ Zpos m <= 2 ^ 52)).
    { destruct sg.
      - apply SFleb_finite_neg in Hlo. clear Hhi.
        change (Z.pos 4503599627370496) with (2 ^ 52) in Hlo. lia.
      - apply SFleb_finite_pos in Hhi. clear Hlo.
        change (Z.pos 4503599627370496) with (2 ^ 52) in Hhi. lia. }
    destruct Hcase as [E|[-> E]].
    + split; [lia|]. apply Z.lt_le_incl. eapply Z.lt_le_trans; [exact Hm53|].
      apply Z.pow_le_mono_r; lia.
    + split; [lia|]. exact E.
Qed.

(** [s * 127] for such a double is a zero or a finite number of magnitude
    at most 127. *)
Lemma mul_127_bounds (s : float) :
  PrimFloat.leb (-1) s = true -> PrimFloat.leb s 1 = true ->
  match Prim2SF (PrimFloat.mul s 127) with
  | S754_zero _ => True
  | S754_finite _ m e => e <= 0 /\ Zpos m <= 127 * 2 ^ (- e)
  | _ => False
  end.
Proof.
  intros Hlo Hhi. pose proof (unit_float s Hlo Hhi) as Hs.
  rewrite FloatAxioms.mul_spec.
  change (Prim2SF 127) with (S754_finite false 8936830510563328 (-46)).
  destruct (Prim2SF s) as [sg|sg| |sg m e]; try contradiction.
  - exact I.
  - destruct Hs as [He Hm].
    change (SF64mul (S754_finite sg m e) (S754_finite false 8936830510563328 (-46)))
      with (binary_round_aux prec emax (xorb sg false)
              (Zpos (m * 8936830510563328)) (e + -46) loc_Exact).
    assert (Hb : Zpos (m * 8936830510563328) <= 127 * 2 ^ (- (e + -46))).
    { replace (- (e + -46)) with (- e + 46) by lia.
      rewrite Z.pow_add_r by lia. change (2 ^ 46) with 70368744177664.
      rewrite Pos2Z.inj_mul. lia. }
    pose proof (binary_round_aux_bounds (xorb sg false) (m * 8936830510563328)
                  (e + -46) 127 ltac:(lia) ltac:(cbn; lia) Hb) as Hr.
    destruct (binary_round_aux _ _ _ _ _ _) as [s'|s'| |s' m' e']; try contradiction.
    + exact I.
    + destruct Hr as (_ & He' & Hm' & _). split; assumption.
Qed.

(** [t + 128] for a [t] of magnitude at most 127 is a positive finite
    number between 1 and 255. *)
Lemma add_128_bounds (t : float) :
  match Prim2SF t with
  | S754_zero _ => True
  | S754_finite _ m e => e <= 0 /\ Zpos m <= 127 * 2 ^ (- e)
  | _ => False
  end ->
  match Prim2SF (PrimFloat.add t 128) with
  | S754_finite false m e =>
      e <= 0 /\ 2 ^ (- e) <= Zpos m <= 255 * 2 ^ (- e)
  | _ => False
  end.
Proof.
  intros Ht. rewrite FloatAxioms.add_spec.
  change (Prim2SF 128) with (S754_finite false 4503599627370496 (-45)).
  destruct (Prim2SF t) as [sg|sg| |sg m e]; try contradiction.
  - change (SF64add (S754_zero sg) (S754_finite false 4503599627370496 (-45)))
      with (S754_finite false 4503599627370496 (-45)).
    split; [lia | split; vm_compute; discriminate].
  - destruct Ht as [He Hm].
    unfold SF64add, SFadd.
    set (ez := Z.min e (-45)).
    pose proof (shl_align_spec m e ez) as H1.
    pose proof (shl_align_spec 4503599627370496 (-45) ez) as H2.
    destruct (shl_align m e ez) as [m1 e1].
    destruct (shl_align 4503599627370496 (-45) ez) as [m2 e2].
    cbn [fst]. destruct H1 as [E1 V1]. destruct H2 as [E2 V2].
    assert (Hez : ez <= e /\ ez <= -45) by (unfold ez; lia).
    clearbody ez.
    assert (Ee1 : e1 = ez) by lia. assert (Ee2 : e2 = ez) by lia.
    rewrite Ee1 in V1. rewrite Ee2 in V2. clear E1 E2. subst e1 e2.
    assert (Hg : 0 < 2 ^ (- ez)) by (apply Z.pow_pos_nonneg; lia).
    assert (B1 : Zpos m1 <= 127 * 2 ^ (- ez)).
    { rewrite V1. replace (- ez) with (- e + (e - ez)) by lia.
      rewrite Z.pow_add_r by lia.
      assert (HP : 0 < 2 ^ (e - ez)) by (apply Z.pow_pos_nonneg; lia).
      set (P := 2 ^ (e - ez)) in *. set (Q := 2 ^ (- e)) in *. nia. }
    assert (B2 : Zpos m2 = 128 * 2 ^ (- ez)).
    { rewrite V2. change (Z.pos 4503599627370496) with (2 ^ 52).
      rewrite <- Z.pow_add_r by lia. change 128 with (2 ^ 7).
      rewrite <- Z.pow_add_r by lia. f_equal. lia. }
    set (S := cond_Zopp sg (Zpos m1) + cond_Zopp false (Zpos m2)).
    assert (HS : 2 ^ (- ez) <= S <= 255 * 2 ^ (- ez)).
    { unfold S, cond_Zopp. destruct sg; lia. }
    destruct S as [|pS|pS] eqn:ES; [lia | | lia].
    cbn [binary_normalize]. unfold binary_round.
    pose proof (shl_align_spec pS ez (fexp prec emax (Zpos (digits2_pos pS) + ez))) as H3.
    destruct (shl_align pS ez _) as [mz ez'].
    destruct H3 as [E3 V3].
    assert (Hez' : ez' <= ez) by lia.
    assert (Hpow : 2 ^ (- ez') = 2 ^ (- ez) * 2 ^ (ez - ez')).
    { rewrite <- Z.pow_add_r by lia. f_equal. lia. }
    assert (Hg' : 0 < 2 ^ (ez - ez')) by (apply Z.pow_pos_nonneg; lia).
    assert (Hb : Zpos mz <= 255 * 2 ^ (- ez')) by (rewrite V3, Hpow; nia).
    pose proof (binary_round_aux_bounds false mz ez' 255 ltac:(lia)
                  ltac:(cbn; lia) Hb) as Hr.
    destruct (binary_round_aux _ _ _ _ _ _) as [s'|s'| |s' m' e'];
      try contradiction.
    + destruct Hr as [_ Hr]. specialize (Hr 1). rewrite V3, Hpow in Hr. nia.
    + destruct Hr as (-> & He' & Hm' & Hl'). specialize (Hl' 1).
      rewrite V3, Hpow in Hl'. split; [assumption|]. split; [nia | assumption].
Qed.

(** The channel computed from a sine between -1 and 1. *)
Lemma channel_bounds (s : float) :
  PrimFloat.leb (-1) s = true -> PrimFloat.leb s 1 = true ->
  1 <= to_uchar (float_to_Z (PrimFloat.add (PrimFloat.mul s 127) 128)) <= 255.
Proof.
  intros Hlo Hhi.
  pose proof (add_128_bounds _ (mul_127_bounds s Hlo Hhi)) as Hv.
  unfold float_to_Z.
  destruct (Prim2SF _) as [sg|sg| |[|] m e]; try contradiction.
  destruct Hv as (He & Hm1 & Hm2).
  assert (Hg : 0 < 2 ^ (- e)) by (apply Z.pow_pos_nonneg; lia).
  assert (Hr : 1 <= (if 0 <=? e then Zpos m * 2 ^ e else Zpos m / 2 ^ (- e)) <= 255).
  { destruct (Z.leb_spec 0 e) as [E|E].
    - assert (e = 0) by lia. subst e. change (2 ^ (- 0)) with 1 in *.
      change (2 ^ 0) with 1. lia.
    - split.
      + apply Z.div_le_lower_bound; lia.
      + apply Z.div_le_upper_bound; lia. }
  unfold to_uchar. rewrite Z.mod_small; lia.
Qed.

End Rounding.

(** ** ScalarKernel at binary64 *)

Lemma escape_loop_origin (fuel : nat) (n : Z) :
  escape_loop (D := float) fuel 0%float 0%float 0%float 0%float n
  = n + Z.of_nat fuel.
Proof.
  revert n. induction fuel as [|fuel IH]; intros n.
  - simpl. lia.
  - change (escape_loop (D := float) (S fuel) 0%float 0%float 0%float 0%float n)
      with (escape_loop (D := float) fuel 0%float 0%float 0%float 0%float (n + 1)).
    rewrite IH. lia.
Qed.

(** C8: at [c = 0] the iterate stays at [0], the test [zr2 + zi2 >= 4.0]
    never holds, and the loop returns the iteration limit, whatever the
    limit is. *)
Theorem escape_iterations_origin (max_iter : Z) :
  0 <= max_iter ->
  escape_iterations (D := float) 0%float 0%float max_iter = max_iter.
Proof.
  intros Hm. unfold escape_iterations.
  change (of_int (D := float) 0) with 0%float.
  rewrite escape_loop_origin. lia.
Qed.

Lemma escape_iterations_origin_witness :
  escape_iterations (D := float) 0%float 0%float MAX_ITERATIONS = MAX_ITERATIONS.
Proof.
  apply (escape_iterations_origin MAX_ITERATIONS). unfold MAX_ITERATIONS. lia.
Defined.

(** The first turn of the loop always passes the test (z = 0) and moves [z]
    to [c]; the second turn tests [c] itself. *)
Lemma escape_loop_two_turns (fuel : nat) (cr ci : float) :
  (4 <=? cr * cr + ci * ci)%float = true ->
  escape_loop (D := float) (S fuel) cr ci 0%float 0%float 0 = 1.
Proof.
  intros Hc.
  change (escape_loop (D := float) (S fuel) cr ci 0%float 0%float 0)
    with (escape_loop (D := float) fuel cr ci (0 + cr)%float (0 + ci)%float 1).
  destruct fuel as [|fuel]; [reflexivity|].
  cbn [escape_loop]. cbn [ge mul add binary64 of_int].
  rewrite !B64.add_zero_sq.
  change (float_of_Z 4) with 4%float. rewrite Hc. reflexivity.
Qed.

(** With [cr*cr + ci*ci >= 4.0] and a limit of at least 1, the loop
    returns 1. *)
Lemma escape_iterations_outside_1 (cr ci : float) (max_iter : Z) :
  (4 <=? cr * cr + ci * ci)%float = true ->
  1 <= max_iter ->
  escape_iterations (D := float) cr ci max_iter = 1.
Proof.
  intros Hc Hm. unfold escape_iterations.
  destruct (Z.to_nat max_iter) as [|fuel] eqn:Ef; [lia|].
  change (of_int (D := float) 0) with 0%float.
  now apply escape_loop_two_turns.
Qed.

(** The same for a point with [cr*cr + ci*ci > 4.0]. *)
Lemma escape_iterations_outside_strict (cr ci : float) (max_iter : Z) :
  (4 <? cr * cr + ci * ci)%float = true ->
  1 <= max_iter ->
  escape_iterations (D := float) cr ci max_iter = 1.
Proof.
  intros Hc Hm. apply escape_iterations_outside_1; [|exact Hm].
  apply B64.ltb_leb, Hc.
Qed.

(** C5, as the loop behaves: a point with [cr*cr + ci*ci >= 4.0] (as the
    loop computes it) is found escaped at the second turn, with [n = 1];
    the value is below the limit as soon as the limit is at least 2. *)
Theorem escape_iterations_outside (cr ci : float) (max_iter : Z) :
  (4 <=? cr * cr + ci * ci)%float = true ->
  2 <= max_iter ->
  escape_iterations (D := float) cr ci max_iter = 1
  /\ escape_iterations (D := float) cr ci max_iter < max_iter.
Proof.
  intros Hc Hm.
  rewrite (escape_iterations_outside_1 cr ci max_iter Hc) by lia.
  split; [reflexivity | lia].
Qed.

Lemma escape_iterations_outside_witness :
  escape_iterations (D := float) 2%float 0%float MAX_ITERATIONS = 1
  /\ escape_iterations (D := float) 2%float 0%float MAX_ITERATIONS < MAX_ITERATIONS.
Proof.
  apply (escape_iterations_outside 2%float 0%float MAX_ITERATIONS);
    [reflexivity | unfold MAX_ITERATIONS; lia].
Defined.

(** C5, as stated, at its own test point: [escape_iterations(2, 0)] is not 0. *)
Lemma escape_iterations_2_0_not_0 :
  escape_iterations (D := float) 2%float 0%float MAX_ITERATIONS <> 0.
Proof. vm_compute. discriminate. Qed.

(** ** ViewportController at binary64 *)

Section Controller.

Context {D : Type} {DD : Double D}.
Variables SCREEN_WIDTH SCREEN_HEIGHT : Z.

(** No event touches [zoom]. *)
Lemma handle_event_zoom (v : Viewport) (e : SDL_Event) :
  zoom (handle_event SCREEN_WIDTH SCREEN_HEIGHT v e) = zoom v.
Proof.
  destruct e as [|button x y|]; simpl; try reflexivity.
  destruct (button =? SDL_BUTTON_LEFT); reflexivity.
Qed.

Lemma handle_events_zoom (events : list SDL_Event) (v : Viewport) :
  zoom (fold_left (handle_event SCREEN_WIDTH SCREEN_HEIGHT) events v) = zoom v.
Proof.
  revert v. induction events as [|e events IH]; intros v; simpl.
  - reflexivity.
  - rewrite IH. apply handle_event_zoom.
Qed.

(** A frame multiplies [zoom] by [zoom_speed] once, whatever the events. *)
Lemma frame_zoom (v : Viewport) (events : list SDL_Event) :
  zoom (frame SCREEN_WIDTH SCREEN_HEIGHT v events) = mul (zoom v) zoom_speed.
Proof. unfold frame. simpl. now rewrite handle_events_zoom. Qed.

(** The loop has multiplied once per turn taken. *)
Lemma main_loop_zoom (frames : list (list SDL_Event)) (v : Viewport) :
  exists n : nat,
    (n <= length frames)%nat
    /\ zoom (main_loop SCREEN_WIDTH SCREEN_HEIGHT v frames) = zoom_after n (zoom v).
Proof.
  revert v. induction frames as [|events frames IH]; intros v; simpl.
  - exists O. split; [lia | reflexivity].
  - destruct (is_running v).
    + destruct (IH (frame SCREEN_WIDTH SCREEN_HEIGHT v events)) as (n & Hn & E).
      exists (S n). split; [lia|]. rewrite E, frame_zoom. reflexivity.
    + exists O. split; [lia | reflexivity].
Qed.

Lemma zoom_after_add (a b : nat) (z : D) :
  zoom_after (a + b) z = zoom_after b (zoom_after a z).
Proof.
  revert z. induction a as [|a IH]; intros z; simpl; [reflexivity | apply IH].
Qed.

End Controller.

Lemma zoom_decreases_spec (n : nat) (z : float) :
  zoom_decreases n z = true ->
  forall k, (k < n)%nat ->
    PrimFloat.ltb (zoom_after (S k) z) (zoom_after k z) = true
    /\ PrimFloat.ltb 0 (zoom_after (S k) z) = true.
Proof.
  revert z. induction n as [|n IH]; intros z Hd k Hk; [lia|].
  cbn [zoom_decreases] in Hd.
  apply andb_prop in Hd. destruct Hd as [Hd Hrest].
  apply andb_prop in Hd. destruct Hd as [Hlt Hpos].
  destruct k as [|k].
  - split; assumption.
  - apply (IH _ Hrest k). lia.
Qed.

Lemma zoom_decreases_until_stall :
  zoom_decreases stall_frame 1%float = true.
Proof. vm_compute. reflexivity. Qed.

Lemma zoom_at_stall : zoom_after stall_frame 1%float = stall_zoom.
Proof. vm_compute. reflexivity. Qed.

Lemma stall_zoom_value : Prim2SF stall_zoom = S754_finite false 33 (-1074).
Proof. vm_compute. reflexivity. Qed.

Lemma stall_zoom_fixed (n : nat) : zoom_after n stall_zoom = stall_zoom.
Proof.
  induction n as [|n IH]; [reflexivity|].
  change (zoom_after (S n) stall_zoom) with (zoom_after n stall_zoom). exact IH.
Qed.

Lemma zoom_after_stall (n : nat) :
  (stall_frame <= n)%nat -> zoom_after n 1%float = stall_zoom.
Proof.
  intros Hn. replace n with (stall_frame + (n - stall_frame))%nat by lia.
  rewrite zoom_after_add, zoom_at_stall. apply stall_zoom_fixed.
Qed.

Lemma zoom_after_positive (n : nat) :
  PrimFloat.ltb 0 (zoom_after n 1%float) = true.
Proof.
  destruct (Nat.lt_ge_cases n (S stall_frame)) as [Hlt|Hge].
  - destruct n as [|n]; [reflexivity|].
    apply (zoom_decreases_spec stall_frame 1%float zoom_decreases_until_stall n).
    lia.
  - rewrite zoom_after_stall by lia. reflexivity.
Qed.

(** C10, as binary64 has it: from [zoom = 1.0], whatever the events of the
    frames, no event changes [zoom], each frame multiplies it once by
    [zoom_speed], and it is strictly positive at every turn of the loop; it
    strictly decreases during the first 49016 frames and keeps the value
    [33 * 2^-1074] from then on. *)
Theorem zoom_positive_forever (SCREEN_WIDTH SCREEN_HEIGHT : Z) :
  (forall (v : Viewport) (e : SDL_Event),
      zoom (handle_event (D := float) SCREEN_WIDTH SCREEN_HEIGHT v e) = zoom v)
  /\ (forall (v : Viewport) (events : list SDL_Event),
      zoom (frame (D := float) SCREEN_WIDTH SCREEN_HEIGHT v events)
      = PrimFloat.mul (zoom v) zoom_speed)
  /\ (forall frames : list (list SDL_Event),
      PrimFloat.ltb 0
        (zoom (main_loop (D := float) SCREEN_WIDTH SCREEN_HEIGHT
                 initial_viewport frames)) = true)
  /\ (forall n : nat,
      ((n < stall_frame)%nat ->
       PrimFloat.ltb (zoom_after (S n) 1%float) (zoom_after n 1%float) = true)
      /\ ((stall_frame <= n)%nat -> zoom_after n 1%float = stall_zoom)).
Proof.
  split; [|split; [|split]].
  - apply handle_event_zoom.
  - intros v events. rewrite frame_zoom. reflexivity.
  - intros frames.
    destruct (main_loop_zoom (D := float) SCREEN_WIDTH SCREEN_HEIGHT frames
                initial_viewport)
      as (n & _ & ->).
    apply zoom_after_positive.
  - intros n. split.
    + intros Hn.
      apply (zoom_decreases_spec stall_frame 1%float zoom_decreases_until_stall n Hn).
    + apply zoom_after_stall.
Qed.

Lemma zoom_positive_forever_witness :
  PrimFloat.ltb (zoom_after 1 1%float) (zoom_after 0 1%float) = true
  /\ zoom_after stall_frame 1%float = stall_zoom.
Proof.
  split.
  - apply (proj1 (proj2 (proj2 (proj2 (zoom_positive_forever 800 600))) O)).
    unfold stall_frame. lia.
  - apply (proj2 (proj2 (proj2 (proj2 (zoom_positive_forever 800 600)))
                    stall_frame)).
    apply Nat.le_refl.
Defined.

(** C10, as stated, at frame 49017: with no event at all, the frame's
    [zoom *= zoom_speed] leaves [zoom] where it was. *)
Lemma zoom_not_strictly_decreasing :
  let v := main_loop (D := float) 800 600 initial_viewport
             (repeat [] stall_frame) in
  PrimFloat.ltb (zoom (frame 800 600 v [])) (zoom v) = false
  /\ zoom (frame 800 600 v []) = zoom v.
Proof. vm_compute. split; reflexivity. Qed.

Lemma float_neq (x y : float) : PrimFloat.Leibniz.eqb x y = false -> x <> y.
Proof.
  intros Hf E. apply FloatAxioms.Leibniz.eqb_spec in E. congruence.
Qed.



(** ** ViewportMapper *)

(** The renderer's coordinates are those of the ViewportMapper formulas,
    for every arithmetic. *)
Lemma pixel_coordinates_formula {D : Type} {DD : Double D}
    (W H x y : Z) (cr ci zoom : D) :
  (pixel_cr W H cr zoom x, pixel_ci W H ci zoom y)
  = ViewportMapper_spec W H x y cr ci zoom.
Proof. reflexivity. Qed.

(** C6, at binary64 on the default 800x600 frame at [zoom = 1.0]: the two
    per-pixel scales are not the same.  [x_scale] is
    [4 * (800 / 600) * 1 / 800], the double one ulp below 1/150, and
    [y_scale] is [4 * 1 / 800 = 1/200]: a step of one pixel to the right
    is a third longer in the plane than a step of one pixel down, and the
    frame shows a region [800 * x_scale] wide and [600 * y_scale] high,
    about 5.33 by 3, on a screen of proportions 4 by 3. *)
Theorem scales_differ_800_600 :
  x_scale (D := float) 800 600 1%float <> y_scale (D := float) 800 1%float
  /\ x_scale (D := float) 800 600 1%float = 0x1.b4e81b4e81b4ep-8%float
  /\ y_scale (D := float) 800 1%float = dec 1 200
  /\ PrimFloat.ltb (y_scale (D := float) 800 1%float)
       (x_scale (D := float) 800 600 1%float) = true
  /\ PrimFloat.mul 800 (x_scale (D := float) 800 600 1%float)
     = 0x1.5555555555555p+2%float
  /\ PrimFloat.mul 600 (y_scale (D := float) 800 1%float) = 3%float.
Proof.
  split; [apply float_neq; vm_compute; reflexivity | vm_compute; repeat split].
Qed.

(** ** PeriodicityFilter: the two test points *)

Lemma periodicity_check_examples :
  periodicity_check (D := float) (-1)%float 0%float = true
  /\ periodicity_check (D := float) 2%float 2%float = false.
Proof. split; reflexivity. Qed.

(** ** Exact arithmetic: the two kernels *)

Section Exact.

Local Open Scope R_scope.

(** Once [|z|^2 >= 4] and [|z|^2 >= |c|^2], the next iterate is no smaller:
    [|z^2 + c| >= |z|^2 - |c| >= |z|]. *)

Lemma escaped_stays_escaped (cr ci zr zi : R) :
  4 <= zr * zr + zi * zi ->
  cr * cr + ci * ci <= zr * zr + zi * zi ->
  zr * zr + zi * zi
  <= (zr * zr - zi * zi + cr) * (zr * zr - zi * zi + cr)
     + (zr * zi * 2 + ci) * (zr * zi * 2 + ci).
Proof.
  intros H4 Hc.
  set (M := zr * zr + zi * zi) in *.
  set (C := cr * cr + ci * ci) in *.
  set (P := (zr * zr - zi * zi) * cr + (zr * zi * 2) * ci).
  assert (HM' : (zr * zr - zi * zi + cr) * (zr * zr - zi * zi + cr)
                + (zr * zi * 2 + ci) * (zr * zi * 2 + ci) = M * M + 2 * P + C).
  { unfold M, C, P. ring. }
  rewrite HM'.
  assert (HCS : P * P <= M * M * C).
  { assert (E : M * M * C - P * P
               = ((zr * zr - zi * zi) * ci - (zr * zi * 2) * cr)
                 * ((zr * zr - zi * zi) * ci - (zr * zi * 2) * cr)).
    { unfold M, C, P. ring. }
    pose proof (Rle_0_sqr ((zr * zr - zi * zi) * ci - (zr * zi * 2) * cr)) as Hs.
    unfold Rsqr in Hs. lra. }
  assert (HC0 : 0 <= C) by (unfold C; nra).
  destruct (Rle_lt_dec M (M * M + 2 * P + C)) as [Hok|Hbad]; [exact Hok|exfalso].
  (* 2P < -(M^2 - M + C) <= 0, hence 4 P^2 > (M^2 - M + C)^2 *)
  assert (Hq : 0 <= M * M - M + C) by nra.
  assert (H1 : (M * M - M + C) * (M * M - M + C) < 4 * (P * P)) by nra.
  assert (H2 : (M * M - M + C) * (M * M - M + C) - 4 * (M * M * C)
               = M * M * M * (M - 4) + (M - C) * (2 * M * M + M - C)).
  { ring. }
  assert (H3 : 0 <= M * M * M * (M - 4)).
  { apply Rmult_le_pos; [|lra]. apply Rmult_le_pos; [|lra]. nra. }
  assert (H4' : 0 <= (M - C) * (2 * M * M + M - C)).
  { apply Rmult_le_pos; [lra|]. nra. }
  nra.
Qed.

Lemma Rltb_true (a b : R) : Rltb a b = true <-> a < b.
Proof. unfold Rltb. destruct (Rlt_dec a b); split; intros; congruence || assumption. Qed.

Lemma Rltb_false (a b : R) : Rltb a b = false <-> b <= a.
Proof.
  unfold Rltb. destruct (Rlt_dec a b); split; intros; try congruence; lra.
Qed.

Lemma Rgeb_Rltb (a b : R) : Rgeb a b = negb (Rltb a b).
Proof.
  unfold Rgeb, Rltb. destruct (Rge_dec a b), (Rlt_dec a b); try reflexivity; lra.
Qed.

Lemma Int_part_IZR (z : Z) : Int_part (IZR z) = z.
Proof.
  unfold Int_part.
  rewrite <- (up_tech (IZR z) z); [lia | lra |].
  rewrite plus_IZR. lra.
Qed.

Lemma Rtrunc_IZR (z : Z) : Rtrunc (IZR z) = z.
Proof.
  unfold Rtrunc. destruct (Rle_dec 0 (IZR z)).
  - apply Int_part_IZR.
  - rewrite <- opp_IZR, Int_part_IZR. lia.
Qed.

Lemma lane_ok_done (n : Z) (cr ci zr zi count : R) (res : Z) :
  lane_ok O n cr ci zr zi count res -> count = IZR res.
Proof.
  intros [Hc He _ | Hc _ _]; [|assumption].
  simpl in He. congruence.
Qed.

(** One turn of the loop, seen from one lane. *)
Lemma lane_step (fuel : nat) (n : Z) (cr ci zr zi count : R) (res : Z) :
  lane_ok (S fuel) n cr ci zr zi count res ->
  let m := Rltb (zr * zr + zi * zi) 4 in
  (m = false -> count = IZR res)
  /\ lane_ok fuel (n + 1) cr ci
       (zr * zr - zi * zi + cr) (zr * zi * 2 + ci)
       (count + (if m then 1 else 0)) res.
Proof.
  intros Hl m. subst m.
  destruct Hl as [Hc He Hinv | Hc H4 Hcz].
  - cbn [escape_loop] in He. cbn in He.
    rewrite Rgeb_Rltb in He.
    destruct (Rltb (zr * zr + zi * zi) 4) eqn:Em; cbn in He.
    + split; [discriminate|].
      apply lane_active.
      * rewrite plus_IZR, Hc. reflexivity.
      * replace (zr * zi * 2 + ci) with (2 * zr * zi + ci) by ring. exact He.
      * apply Rltb_true in Em.
        destruct Hinv as [Hle | [[-> ->] | [-> ->]]].
        -- left. exact Hle.
        -- right. right. split; ring.
        -- left. lra.
    + apply Rltb_false in Em. subst res.
      split; [intros _; exact Hc|].
      assert (Hcz : cr * cr + ci * ci <= zr * zr + zi * zi).
      { destruct Hinv as [Hle | [[-> ->] | [-> ->]]]; lra. }
      pose proof (escaped_stays_escaped cr ci zr zi Em Hcz) as Hk.
      apply lane_frozen; [rewrite Hc; ring | lra | lra].
  - assert (Em : Rltb (zr * zr + zi * zi) 4 = false) by (apply Rltb_false; exact H4).
    rewrite Em. split; [intros _; exact Hc|].
    pose proof (escaped_stays_escaped cr ci zr zi H4 Hcz) as Hk.
    apply lane_frozen; [rewrite Hc; ring | lra | lra].
Qed.

Lemma simd_loop_lanes (fuel : nat) :
  forall (n : Z) (cr0 cr1 ci0 ci1 zr0 zr1 zi0 zi1 count0 count1 : R)
         (res0 res1 : Z),
    lane_ok fuel n cr0 ci0 zr0 zi0 count0 res0 ->
    lane_ok fuel n cr1 ci1 zr1 zi1 count1 res1 ->
    simd_loop (D := R) fuel (cr0, cr1) (ci0, ci1) (zr0, zr1) (zi0, zi1)
      (count0, count1)
    = (IZR res0, IZR res1).
Proof.
  induction fuel as [|fuel IH]; intros n cr0 cr1 ci0 ci1 zr0 zr1 zi0 zi1
    count0 count1 res0 res1 H0 H1.
  - simpl. apply lane_ok_done in H0. apply lane_ok_done in H1. congruence.
  - apply lane_step in H0. apply lane_step in H1.
    destruct H0 as [Hd0 Hs0]. destruct H1 as [Hd1 Hs1].
    cbn [simd_loop].
    unfold mm_movemask_pd, mm_cmplt_pd, mm_add_pd, mm_mul_pd, mm_sub_pd,
      mm_and_pd, fours, ones, two, mm_set1_pd.
    cbn [fst snd lt add mul sub of_int exact].
    destruct (Rltb (zr0 * zr0 + zi0 * zi0) 4) eqn:E0;
      destruct (Rltb (zr1 * zr1 + zi1 * zi1) 4) eqn:E1;
      cbn [Z.add Z.eqb Pos.add Pos.eqb].
    + apply (IH (n + 1)%Z); assumption.
    + apply (IH (n + 1)%Z); assumption.
    + apply (IH (n + 1)%Z); assumption.
    + rewrite Hd0, Hd1 by reflexivity. reflexivity.
Qed.

End Exact.

(** With real numbers in the place of doubles, each lane of the SSE2 loop
    ends with the count of the scalar loop: the mask is recomputed at every
    turn and never latched, which is harmless there because a lane that has
    left the disc stays outside ([escaped_stays_escaped]).  The doubles of
    the program do not have that property: see the section on the two
    kernels at binary64. *)
Lemma simd_iterations_scalar (cr_base0 cr_base1 ci_base : R) :
  simd_iterations (D := R) cr_base0 cr_base1 ci_base
  = (escape_iterations (D := R) cr_base0 ci_base MAX_ITERATIONS,
     escape_iterations (D := R) cr_base1 ci_base MAX_ITERATIONS).
Proof.
  unfold simd_iterations, escape_iterations, mm_storeu_pd, mm_set_pd,
    mm_set1_pd, mm_setzero_pd.
  cbn [of_int exact to_int].
  rewrite (simd_loop_lanes (Z.to_nat MAX_ITERATIONS) 0
             cr_base0 cr_base1 ci_base ci_base 0%R 0%R 0%R 0%R 0%R 0%R
             (escape_loop (D := R) (Z.to_nat MAX_ITERATIONS) cr_base0 ci_base 0%R 0%R 0)
             (escape_loop (D := R) (Z.to_nat MAX_ITERATIONS) cr_base1 ci_base 0%R 0%R 0)).
  - cbn [fst snd]. rewrite !Rtrunc_IZR. reflexivity.
  - apply lane_active; [reflexivity | reflexivity | right; left; split; reflexivity].
  - apply lane_active; [reflexivity | reflexivity | right; left; split; reflexivity].
Qed.

(** ** ColorMapper *)

(** At and above the iteration limit the colour is black, for every
    arithmetic and every [sin]. *)
Lemma get_color_black {D : Type} {DD : Double D} {DL : Libm D} (n : Z) :
  MAX_ITERATIONS <= n -> get_color (D := D) n = mkColor 0 0 0.
Proof.
  intros Hn. unfold get_color.
  destruct (Z.geb_spec n MAX_ITERATIONS); [reflexivity | lia].
Qed.

Section ExactColor.

Local Open Scope R_scope.

Lemma Rtrunc_channel (v : R) :
  1 <= v <= 255 -> (1 <= to_uchar (Rtrunc v) <= 255)%Z.
Proof.
  intros [Hlo Hhi]. unfold Rtrunc.
  destruct (Rle_dec 0 v) as [_|Hn]; [|lra].
  unfold Int_part. destruct (archimed v) as [Hup1 Hup2].
  assert (H1 : (1 < up v)%Z) by (apply lt_IZR; lra).
  assert (H2 : (up v < 257)%Z) by (apply lt_IZR; lra).
  unfold to_uchar. rewrite Z.mod_small; lia.
Qed.

Lemma sin_channel (x : R) : 1 <= Rtrigo_def.sin x * 127 + 128 <= 255.
Proof. pose proof (SIN_bound x). lra. Qed.

End ExactColor.

(** In exact arithmetic, with the sine of the real numbers: black at and
    above the limit, and below it every channel in [[1, 255]]. *)
Lemma get_color_range_exact (n : Z) :
  (MAX_ITERATIONS <= n -> get_color (D := R) n = mkColor 0 0 0)
  /\ (n < MAX_ITERATIONS ->
      1 <= r (get_color (D := R) n) <= 255
      /\ 1 <= g (get_color (D := R) n) <= 255
      /\ 1 <= b (get_color (D := R) n) <= 255).
Proof.
  split.
  - apply get_color_black.
  - intros Hn. unfold get_color.
    destruct (Z.geb_spec n MAX_ITERATIONS); [lia|].
    cbn [r g b]. cbn [sin exact_libm mul add of_int exact to_int].
    repeat split; apply Rtrunc_channel || apply Rtrunc_channel; apply sin_channel.
Qed.

Lemma color_args_finite_all (n : Z) :
  0 <= n < MAX_ITERATIONS -> color_args_finite n = true.
Proof.
  intros Hn. unfold MAX_ITERATIONS in Hn.
  assert (H : forallb (fun k => color_args_finite (Z.of_nat k)) (seq 0 255) = true)
    by (vm_compute; reflexivity).
  rewrite forallb_forall in H.
  specialize (H (Z.to_nat n)). rewrite Z2Nat.id in H by lia.
  apply H, in_seq. lia.
Qed.

(** C7: [get_color n] is black for [n >= MAX_ITERATIONS]; for
    [0 <= n < MAX_ITERATIONS], in binary64 and with any [sin] whose value
    on every finite double lies between -1 and 1 (nothing is asked of it
    on NaN and the infinities, where IEEE 754 has it return NaN), each
    channel [(unsigned char)(int)(sin (0.1 * n + phase) * 127 + 128)] lies
    in [[1, 255]]: the three arguments are finite, the product and the sum
    are rounded, the cast truncates toward zero. *)
Theorem get_color_range (libm_sin : float -> float) (n : Z) :
  (forall x, PrimFloat.is_finite x = true ->
             PrimFloat.leb (-1) (libm_sin x) = true
             /\ PrimFloat.leb (libm_sin x) 1 = true) ->
  let color := get_color (D := float) (DL := Build_Libm float libm_sin) n in
  (MAX_ITERATIONS <= n -> color = mkColor 0 0 0)
  /\ (0 <= n < MAX_ITERATIONS ->
      1 <= r color <= 255 /\ 1 <= g color <= 255 /\ 1 <= b color <= 255).
Proof.
  intros Hsin color. subst color. split.
  - apply get_color_black.
  - intros Hn. unfold get_color.
    destruct (Z.geb_spec n MAX_ITERATIONS); [lia|].
    pose proof (color_args_finite_all n Hn) as Hfin.
    unfold color_args_finite in Hfin. cbv zeta in Hfin.
    apply andb_prop in Hfin. destruct Hfin as [Hfin H4].
    apply andb_prop in Hfin. destruct Hfin as [H0 H2].
    cbn [r g b]. cbn [sin mul add of_int binary64 to_int].
    change (float_of_Z 127) with 127%float.
    change (float_of_Z 128) with 128%float.
    repeat split;
      apply Rounding.channel_bounds || apply Rounding.channel_bounds;
      apply Hsin; assumption.
Qed.

(** [sin_model] meets the hypothesis: it is not constant, and it is NaN on
    NaN. *)
Lemma get_color_range_witness :
  let color := get_color (D := float) (DL := Build_Libm float sin_model) 10 in
  (MAX_ITERATIONS <= 10 -> color = mkColor 0 0 0)
  /\ (0 <= 10 < MAX_ITERATIONS ->
      1 <= r color <= 255 /\ 1 <= g color <= 255 /\ 1 <= b color <= 255).
Proof.
  apply (get_color_range sin_model 10).
  intros x Hx. unfold sin_model. rewrite Hx. unfold clamp_unit.
  generalize (sin_poly (sin_reduce x)) as y. intros y.
  destruct (PrimFloat.leb y 1) eqn:E1; [|split; reflexivity].
  destruct (PrimFloat.leb (-1) y) eqn:E2; [|split; reflexivity].
  split; assumption.
Defined.

(** The colours of the first counts with [sin_model], and its value on
    NaN. *)
Remark get_color_model_samples :
  get_color (D := float) (DL := model_libm) 1 = mkColor 140 237 24
  /\ get_color (D := float) (DL := model_libm) 2 = mkColor 153 230 17
  /\ get_color (D := float) (DL := model_libm) 10 = mkColor 234 145 6
  /\ PrimFloat.is_nan (sin_model PrimFloat.nan) = true.
Proof. vm_compute. repeat split. Qed.

(** ** The two kernels at binary64 *)

(** On the first batch of the first 800x600 frame (pixels (0,0) and (1,0)),
    on the batch at the center of that frame, and on two batches whose
    lanes escape at different turns, the SSE2 loop and the scalar loop
    agree. *)
Lemma simd_iterations_binary64_samples :
  let v := initial_viewport (D := float) in
  let batch (x y : Z) :=
    (pixel_cr 800 600 (center_r v) (zoom v) x,
     pixel_cr 800 600 (center_r v) (zoom v) (x + 1),
     pixel_ci 800 600 (center_i v) (zoom v) y) in
  let agree (p : float * float * float) :=
    let '(cr0, cr1, ci) := p in
    (fst (simd_iterations cr0 cr1 ci) =? escape_iterations cr0 ci MAX_ITERATIONS)
    && (snd (simd_iterations cr0 cr1 ci) =? escape_iterations cr1 ci MAX_ITERATIONS) in
  agree (batch 0 0) = true
  /\ agree (batch 400 300) = true
  /\ agree (batch 300 300) = true
  /\ agree ((-0.75)%float, 0.5%float, 0.25%float) = true
  /\ simd_iterations (D := float) (-0.75)%float 0.5%float 0.25%float = (13, 5).
Proof. vm_compute. repeat split. Qed.

(** Outside the plane the two loops part: on a NaN coordinate the scalar
    test [zr2 + zi2 >= 4.0] is false at every turn and the loop runs to the
    limit, while the lane's [zr2 + zi2 < 4.0] is false from the second turn
    on and the lane's count stays at 1. *)
Remark kernels_differ_on_nan :
  escape_iterations (D := float) PrimFloat.nan 0%float MAX_ITERATIONS = 255
  /\ fst (simd_iterations (D := float) PrimFloat.nan 0%float 0%float) = 1.
Proof. vm_compute. split; reflexivity. Qed.

(** C1, at binary64: the SSE2 loop does not latch a lane that has escaped,
    and rounding lets such a lane come back below 4.  At
    [c = (-0x1.fffffffffffffp+0, 0x1.bb67ae8584cabp-26)] the sum
    [cr * cr + ci * ci] rounds to 4: the scalar loop stops at its second
    test and returns 1.  Lane 0 of the SSE2 loop is not counted at that
    turn, but the batch goes on for the other lane (here
    [-0x1.ffffffffffffep-1], which never escapes), [z] is updated, the
    next [zr2 + zi2] rounds to [0x1.fffffffffffffp+1 < 4] and the lane is
    counted again: it ends with 2.  The batch is not one the filter
    shortcuts, so the two builds pass [get_color] different counts for
    this pixel, 2 and 1. *)
Theorem simd_lane_counts_after_escape :
  let cr_base0 := (-0x1.fffffffffffffp+0)%float in
  let cr_base1 := (-0x1.ffffffffffffep-1)%float in
  let ci_base := 0x1.bb67ae8584cabp-26%float in
  let zr := PrimFloat.add
              (PrimFloat.sub (PrimFloat.mul cr_base0 cr_base0)
                 (PrimFloat.mul ci_base ci_base)) cr_base0 in
  let zi := PrimFloat.add
              (PrimFloat.mul (PrimFloat.mul cr_base0 ci_base) 2) ci_base in
  escape_iterations (D := float) cr_base0 ci_base MAX_ITERATIONS = 1
  /\ simd_iterations (D := float) cr_base0 cr_base1 ci_base = (2, 255)
  /\ escape_iterations (D := float) cr_base1 ci_base MAX_ITERATIONS = 255
  /\ PrimFloat.add (PrimFloat.mul cr_base0 cr_base0)
       (PrimFloat.mul ci_base ci_base) = 4%float
  /\ PrimFloat.add (PrimFloat.mul zr zr) (PrimFloat.mul zi zi)
     = 0x1.fffffffffffffp+1%float
  /\ (periodicity_check (D := float) cr_base0 ci_base
      && periodicity_check (D := float) cr_base1 ci_base) = false.
Proof. vm_compute. repeat split. Qed.

(** The same lane with a neighbour [2^-8] away, as in a frame whose columns
    are [2^-8] apart: the neighbour escapes at turn 24, long enough for
    lane 0 to be counted again. *)
Remark escaped_lane_recounted_near :
  let cr_base0 := (-0x1.fffffffffffffp+0)%float in
  let cr_base1 := PrimFloat.add cr_base0 0x1p-8%float in
  let ci_base := 0x1.bb67ae8584cabp-26%float in
  escape_iterations (D := float) cr_base0 ci_base MAX_ITERATIONS = 1
  /\ simd_iterations (D := float) cr_base0 cr_base1 ci_base = (2, 24).
Proof. vm_compute. split; reflexivity. Qed.

(** On every eighth pixel of the first frame, in both directions, the two
    lanes of the SSE2 loop return what the scalar loop returns. *)
Lemma batches_agree_on_grid : grid_forall 8 800 600 batch_agrees = true.
Proof. vm_compute. reflexivity. Qed.

(** On every fourth pixel of the first frame, a point that passes the
    periodicity filter does not escape within [MAX_ITERATIONS] turns. *)
Lemma filter_sound_on_grid : grid_forall 4 800 600 filter_sound_at = true.
Proof. vm_compute. reflexivity. Qed.

(** ** ViewportController in exact arithmetic *)

(** With real numbers [zoom] is positive and strictly decreasing at every
    frame: the stall after [stall_frame] frames is binary64's. *)
Lemma zoom_exact_decreasing (n : nat) :
  (0 < zoom_after (D := R) n 1 /\ zoom_after (D := R) (S n) 1 < zoom_after (D := R) n 1)%R.
Proof.
  assert (Hs : forall (k : nat) (z : R),
             (zoom_after (D := R) (S k) z = zoom_after (D := R) k z * (985 / 1000))%R).
  { induction k as [|k IH]; intros z.
    - reflexivity.
    - change (zoom_after (D := R) (S (S k)) z)
        with (zoom_after (D := R) (S k) (z * (985 / 1000))%R).
      rewrite IH. reflexivity. }
  assert (Hp : (0 < zoom_after (D := R) n 1)%R).
  { induction n as [|n IH]; [cbn; lra|]. rewrite Hs. lra. }
  split; [exact Hp|]. rewrite Hs. lra.
Qed.

(** * Further properties of the code *)

(** ** FrameScheduler: which rows a frame renders *)

(** X1: The rows a frame renders are those below [SCREEN_HEIGHT] minus the
    remainder of its division by [num_threads]. *)
Theorem frame_rows_rendered (SCREEN_HEIGHT num_threads y : Z) :
  0 < SCREEN_HEIGHT -> 1 <= num_threads ->
  (In y (frame_rows SCREEN_HEIGHT num_threads)
   <-> 0 <= y < SCREEN_HEIGHT - SCREEN_HEIGHT mod num_threads).
Proof.
  intros HH Hn. rewrite frame_rows_spec by assumption.
  rewrite Z.quot_div_nonneg by lia.
  pose proof (Z.div_mod SCREEN_HEIGHT num_threads ltac:(lia)). lia.
Qed.

Lemma frame_rows_rendered_witness :
  In 1071 (frame_rows 1080 16) <-> 0 <= 1071 < 1080 - 1080 mod 16.
Proof. apply (frame_rows_rendered 1080 16 1071); lia. Defined.

(** X2: Two different threads of a frame never write the same row. *)
Theorem threads_never_share_row (SCREEN_HEIGHT num_threads i j y : Z) :
  0 < SCREEN_HEIGHT -> 0 <= i < num_threads -> 0 <= j < num_threads ->
  i <> j ->
  In y (thread_rows SCREEN_HEIGHT num_threads i) ->
  ~ In y (thread_rows SCREEN_HEIGHT num_threads j).
Proof.
  intros HH Hi Hj Hij Hy Hy'.
  apply thread_rows_spec in Hy; [|lia|lia|lia].
  apply thread_rows_spec in Hy'; [|lia|lia|lia].
  unfold start_y, end_y in *. nia.
Qed.

Lemma threads_never_share_row_witness :
  In 0 (thread_rows 600 4 0) /\ ~ In 0 (thread_rows 600 4 1).
Proof.
  assert (H0 : In 0 (thread_rows 600 4 0)) by (vm_compute; left; reflexivity).
  split; [exact H0|].
  apply (threads_never_share_row 600 4 0 1 0); [lia | lia | lia | lia | exact H0].
Defined.

(** X3: With more threads than rows every thread gets an empty range and the
    frame renders nothing. *)
Theorem frame_rows_more_threads_than_rows (SCREEN_HEIGHT num_threads : Z) :
  0 <= SCREEN_HEIGHT < num_threads ->
  frame_rows SCREEN_HEIGHT num_threads = [].
Proof.
  intros Hlt. unfold frame_rows.
  assert (Hq : SCREEN_HEIGHT ÷ num_threads = 0) by (apply Z.quot_small; lia).
  induction (seq 0 (Z.to_nat num_threads)) as [|i l IH]; [reflexivity|].
  cbn [flat_map]. rewrite IH.
  unfold thread_rows, start_y, end_y. rewrite Hq. reflexivity.
Qed.

Lemma frame_rows_more_threads_than_rows_witness : frame_rows 600 1024 = [].
Proof. apply (frame_rows_more_threads_than_rows 600 1024). lia. Defined.

(** X4: When [SDL_GetCPUCount] reports less than one core, the single thread
    of the fallback renders every row of the frame. *)
Theorem single_thread_fallback (SCREEN_HEIGHT cpu_count y : Z) :
  0 < SCREEN_HEIGHT -> cpu_count < 1 ->
  (In y (frame_rows SCREEN_HEIGHT (clamp_threads cpu_count))
   <-> 0 <= y < SCREEN_HEIGHT).
Proof.
  intros HH Hc. unfold clamp_threads.
  destruct (Z.ltb_spec cpu_count 1); [|lia].
  rewrite frame_rows_spec by lia. rewrite Z.quot_1_r. lia.
Qed.

Lemma single_thread_fallback_witness :
  In 599 (frame_rows 600 (clamp_threads 0)) <-> 0 <= 599 < 600.
Proof. apply (single_thread_fallback 600 0 599); lia. Defined.

(** ** Pixel words *)

Lemma lor_disjoint (a b n : Z) :
  0 <= n -> 0 <= b < 2 ^ n -> Z.lor (a * 2 ^ n) b = a * 2 ^ n + b.
Proof.
  intros Hn Hb. rewrite <- Z.add_lor_land.
  assert (E : Z.land (a * 2 ^ n) b = 0).
  { apply Z.bits_inj'. intros i Hi. rewrite Z.land_spec, Z.bits_0.
    destruct (Z.lt_ge_cases i n) as [Hlt|Hge].
    - rewrite Z.mul_pow2_bits_low by lia. reflexivity.
    - rewrite <- (Z.mod_small b (2 ^ n)) by lia.
      rewrite Z.mod_pow2_bits_high by lia. apply andb_false_r. }
  rewrite E. lia.
Qed.

(** The word packed from channels below 256. *)
Lemma argb_value (c : Color) :
  0 <= r c < 256 -> 0 <= g c < 256 -> 0 <= b c < 256 ->
  argb c = 4278190080 + r c * 65536 + g c * 256 + b c.
Proof.
  intros Hr Hg Hb. unfold argb, Uint32.
  rewrite !Z.shiftl_mul_pow2 by lia.
  change (2 ^ 24) with 16777216. change (2 ^ 16) with 65536.
  change (2 ^ 8) with 256. change (2 ^ 32) with 4294967296.
  replace (255 * 16777216) with (65280 * 2 ^ 16) by reflexivity.
  replace (r c * 65536) with (r c * 2 ^ 16) by reflexivity.
  assert (E1 : Z.lor (65280 * 2 ^ 16) (r c * 2 ^ 16) = (65280 + r c) * 2 ^ 16).
  { replace (r c * 2 ^ 16) with (Z.shiftl (r c) 16) by (rewrite Z.shiftl_mul_pow2; lia).
    replace (65280 * 2 ^ 16) with (Z.shiftl 65280 16) by reflexivity.
    rewrite <- Z.shiftl_lor.
    replace 65280 with (255 * 2 ^ 8) by reflexivity.
    rewrite lor_disjoint by (change (2 ^ 8) with 256; lia).
    rewrite Z.shiftl_mul_pow2 by lia. reflexivity. }
  rewrite E1.
  replace ((65280 + r c) * 2 ^ 16) with (((65280 + r c) * 256) * 2 ^ 8)
    by (change (2 ^ 16) with 65536; change (2 ^ 8) with 256; lia).
  replace (g c * 256) with (g c * 2 ^ 8) by reflexivity.
  assert (E2 : Z.lor ((65280 + r c) * 256 * 2 ^ 8) (g c * 2 ^ 8)
               = ((65280 + r c) * 256 + g c) * 2 ^ 8).
  { replace (g c * 2 ^ 8) with (Z.shiftl (g c) 8) by (rewrite Z.shiftl_mul_pow2; lia).
    replace ((65280 + r c) * 256 * 2 ^ 8) with (Z.shiftl ((65280 + r c) * 256) 8)
      by (rewrite Z.shiftl_mul_pow2; lia).
    rewrite <- Z.shiftl_lor.
    replace ((65280 + r c) * 256) with ((65280 + r c) * 2 ^ 8) by reflexivity.
    rewrite lor_disjoint by (change (2 ^ 8) with 256; lia).
    rewrite Z.shiftl_mul_pow2 by lia. reflexivity. }
  rewrite E2.
  rewrite lor_disjoint by (change (2 ^ 8) with 256; lia).
  change (2 ^ 8) with 256.
  rewrite Z.mod_small by lia. lia.
Qed.

Lemma bytes_of_word (r0 g0 b0 : Z) :
  0 <= r0 < 256 -> 0 <= g0 < 256 -> 0 <= b0 < 256 ->
  let px := 4278190080 + r0 * 65536 + g0 * 256 + b0 in
  alpha_of px = 255 /\ red_of px = r0 /\ green_of px = g0 /\ blue_of px = b0.
Proof.
  intros Hr Hg Hb px. unfold alpha_of, red_of, green_of, blue_of.
  change 255 with (Z.ones 8). rewrite !Z.land_ones by lia.
  rewrite !Z.shiftr_div_pow2 by lia.
  change (2 ^ 24) with 16777216. change (2 ^ 16) with 65536.
  change (2 ^ 8) with 256. change (Z.ones 8) with 255.
  subst px.
  assert (Ea : (4278190080 + r0 * 65536 + g0 * 256 + b0) / 16777216 = 255)
    by (symmetry; apply Z.div_unique with (r0 * 65536 + g0 * 256 + b0); lia).
  assert (Er : (4278190080 + r0 * 65536 + g0 * 256 + b0) / 65536 = 65280 + r0)
    by (symmetry; apply Z.div_unique with (g0 * 256 + b0); lia).
  assert (Eg : (4278190080 + r0 * 65536 + g0 * 256 + b0) / 256
               = 16711680 + r0 * 256 + g0)
    by (symmetry; apply Z.div_unique with b0; lia).
  rewrite Ea, Er, Eg. repeat split.
  - symmetry. apply Z.mod_unique with 255; lia.
  - symmetry. apply Z.mod_unique with (65280 + r0); lia.
  - symmetry. apply Z.mod_unique with (16711680 + r0 * 256 + g0); lia.
Qed.

Section Pixels.

Context {D : Type} {DD : Double D} {DL : Libm D}.

Lemma get_color_channels (n : Z) :
  0 <= r (get_color n) < 256
  /\ 0 <= g (get_color n) < 256
  /\ 0 <= b (get_color n) < 256.
Proof.
  unfold get_color. destruct (n >=? MAX_ITERATIONS); cbn [r g b].
  - lia.
  - unfold to_uchar. repeat split; apply Z.mod_pos_bound; lia.
Qed.

Lemma argb_get_color_bytes_alpha (n : Z) : alpha_of (argb (get_color n)) = 255.
Proof.
  destruct (get_color_channels n) as (Hr & Hg & Hb).
  rewrite argb_value by assumption.
  apply (bytes_of_word _ _ _ Hr Hg Hb).
Qed.

End Pixels.

(** X5: The word stored for an iteration count carries full alpha and the
    three channels of [get_color], for every count and every arithmetic;
    the word of the periodicity shortcut is opaque black. *)
Theorem argb_get_color_bytes {D : Type} {DD : Double D} {DL : Libm D} (n : Z) :
  let px := argb (get_color n) in
  alpha_of px = 255
  /\ red_of px = r (get_color n)
  /\ green_of px = g (get_color n)
  /\ blue_of px = b (get_color n)
  /\ (alpha_of BLACK, red_of BLACK, green_of BLACK, blue_of BLACK) = (255, 0, 0, 0).
Proof.
  intros px. subst px.
  destruct (get_color_channels n) as (Hr & Hg & Hb).
  rewrite argb_value by assumption.
  destruct (bytes_of_word _ _ _ Hr Hg Hb) as (Ha & Hr' & Hg' & Hb').
  repeat split; assumption.
Qed.

(** ** The row loops overwrite the whole row *)

Lemma store_nth (row : list Z) (x : nat) (v : Z) (row' : list Z) :
  store row x v = Some row' ->
  nth_error row' x = Some v
  /\ forall k, k <> x -> nth_error row' k = nth_error row k.
Proof.
  revert x row'. induction row as [|hd tl IH]; intros x row' Hs; [discriminate|].
  destruct x as [|x]; cbn [store] in Hs.
  - injection Hs as <-. split; [reflexivity|].
    intros [|k] Hk; [congruence | reflexivity].
  - destruct (store tl x v) as [tl'|] eqn:E; [|discriminate].
    injection Hs as <-. destruct (IH x tl' E) as [Hx Hk].
    split; [exact Hx|].
    intros [|k] Hk'; [reflexivity|]. simpl. apply Hk. congruence.
Qed.

Lemma store_px_nth (row : list Z) (x v : Z) (row' : list Z) :
  store_px row x v = Some row' ->
  nth_error row' (Z.to_nat x) = Some v
  /\ forall k, Z.of_nat k <> x -> nth_error row' k = nth_error row k.
Proof.
  intros Hs. pose proof (store_px_inside _ _ _ _ Hs) as Hx.
  unfold store_px in Hs. destruct (Z.ltb_spec x 0); [discriminate|].
  destruct (store_nth _ _ _ _ Hs) as [H1 H2].
  split; [exact H1|]. intros k Hk. apply H2. lia.
Qed.

Section RowCover.

Context {D : Type} {DD : Double D} {DL : Libm D}.
Variables SCREEN_WIDTH SCREEN_HEIGHT : Z.
Variables center_r center_i zoom : D.

(** The row after two stores at [x] and, inside the row, at [x + 1]. *)
Lemma store_pair (row : list Z) (x v0 v1 : Z) :
  0 <= x < SCREEN_WIDTH -> Z.of_nat (length row) = SCREEN_WIDTH ->
  exists row2,
    match store_px row x v0 with
    | None => None
    | Some row1 =>
        if x + 1 <? SCREEN_WIDTH then store_px row1 (x + 1) v1 else Some row1
    end = Some row2
    /\ length row2 = length row
    /\ nth_error row2 (Z.to_nat x) = Some v0
    /\ (x + 1 < SCREEN_WIDTH -> nth_error row2 (Z.to_nat (x + 1)) = Some v1)
    /\ forall k : nat,
         Z.of_nat k <> x -> Z.of_nat k <> x + 1 ->
         nth_error row2 k = nth_error row k.
Proof.
  intros Hx Hlen.
  destruct (store_px_length row x v0 ltac:(lia)) as (row1 & E1 & Hl1).
  rewrite E1. destruct (store_px_nth _ _ _ _ E1) as [Hx1 Ho1].
  destruct (Z.ltb_spec (x + 1) SCREEN_WIDTH) as [Hlt|Hge].
  - destruct (store_px_length row1 (x + 1) v1 ltac:(lia)) as (row2 & E2 & Hl2).
    rewrite E2. destruct (store_px_nth _ _ _ _ E2) as [Hx2 Ho2].
    exists row2. split; [reflexivity|]. split; [congruence|]. split.
    { rewrite Ho2 by lia. exact Hx1. }
    split; [intros _; exact Hx2|].
    intros k Hk0 Hk1. rewrite Ho2 by exact Hk1. apply Ho1. exact Hk0.
  - exists row1. split; [reflexivity|]. split; [exact Hl1|]. split; [exact Hx1|].
    split; [lia|]. intros k Hk0 _. apply Ho1. exact Hk0.
Qed.

Lemma simd_pixel_lane0 (y x : Z) :
  x mod 2 = 0 ->
  simd_pixel SCREEN_WIDTH SCREEN_HEIGHT center_r center_i zoom y x
  = let ci_base := pixel_ci SCREEN_WIDTH SCREEN_HEIGHT center_i zoom y in
    let cr_base0 := pixel_cr SCREEN_WIDTH SCREEN_HEIGHT center_r zoom x in
    let cr_base1 := pixel_cr SCREEN_WIDTH SCREEN_HEIGHT center_r zoom (x + 1) in
    if periodicity_check cr_base0 ci_base && periodicity_check cr_base1 ci_base
    then BLACK
    else argb (get_color (fst (simd_iterations cr_base0 cr_base1 ci_base))).
Proof.
  intros Hx. unfold simd_pixel. rewrite Hx.
  replace (x - 0) with x by lia. reflexivity.
Qed.

Lemma simd_pixel_lane1 (y x : Z) :
  x mod 2 = 0 ->
  simd_pixel SCREEN_WIDTH SCREEN_HEIGHT center_r center_i zoom y (x + 1)
  = let ci_base := pixel_ci SCREEN_WIDTH SCREEN_HEIGHT center_i zoom y in
    let cr_base0 := pixel_cr SCREEN_WIDTH SCREEN_HEIGHT center_r zoom x in
    let cr_base1 := pixel_cr SCREEN_WIDTH SCREEN_HEIGHT center_r zoom (x + 1) in
    if periodicity_check cr_base0 ci_base && periodicity_check cr_base1 ci_base
    then BLACK
    else argb (get_color (snd (simd_iterations cr_base0 cr_base1 ci_base))).
Proof.
  intros Hx. unfold simd_pixel.
  assert (E : (x + 1) mod 2 = 1).
  { rewrite Z.add_mod by lia. rewrite Hx. reflexivity. }
  rewrite E. replace (x + 1 - 1) with x by lia. reflexivity.
Qed.

(** The SSE2 row loop from an even column [x] on: the columns below [x] are
    kept, every column from [x] to the end of the row receives its
    [simd_pixel]. *)
Lemma simd_row_from (fuel : nat) (y : Z) :
  forall (x : Z) (row : list Z),
    0 <= x -> x mod 2 = 0 ->
    Z.of_nat (length row) = SCREEN_WIDTH ->
    SCREEN_WIDTH - x <= 2 * Z.of_nat fuel ->
    exists row',
      simd_row SCREEN_WIDTH SCREEN_HEIGHT center_r center_i zoom fuel y x row
      = Some row'
      /\ length row' = length row
      /\ forall k : nat,
           (Z.of_nat k < x -> nth_error row' k = nth_error row k)
           /\ (x <= Z.of_nat k < SCREEN_WIDTH ->
               nth_error row' k
               = Some (simd_pixel SCREEN_WIDTH SCREEN_HEIGHT center_r center_i
                         zoom y (Z.of_nat k))).
Proof.
  induction fuel as [|fuel IH]; intros x row Hx Heven Hlen Hfuel.
  - simpl. destruct (Z.ltb_spec x SCREEN_WIDTH); [lia|].
    exists row. split; [reflexivity|]. split; [reflexivity|].
    intros k. split; [reflexivity | lia].
  - cbn [simd_row]. destruct (Z.ltb_spec x SCREEN_WIDTH) as [Hlt|Hge].
    2:{ exists row. split; [reflexivity|]. split; [reflexivity|].
        intros k. split; [reflexivity | lia]. }
    pose proof (simd_pixel_lane0 y x Heven) as P0.
    pose proof (simd_pixel_lane1 y x Heven) as P1.
    cbv zeta in P0, P1 |- *.
    assert (Hstep : forall v0 v1,
      v0 = simd_pixel SCREEN_WIDTH SCREEN_HEIGHT center_r center_i zoom y x ->
      v1 = simd_pixel SCREEN_WIDTH SCREEN_HEIGHT center_r center_i zoom y (x + 1) ->
      exists row',
        match store_px row x v0 with
        | None => None
        | Some row1 =>
            match (if x + 1 <? SCREEN_WIDTH
                   then store_px row1 (x + 1) v1 else Some row1) with
            | None => None
            | Some row2 =>
                simd_row SCREEN_WIDTH SCREEN_HEIGHT center_r center_i zoom
                  fuel y (x + 2) row2
            end
        end = Some row'
        /\ length row' = length row
        /\ forall k : nat,
             (Z.of_nat k < x -> nth_error row' k = nth_error row k)
             /\ (x <= Z.of_nat k < SCREEN_WIDTH ->
                 nth_error row' k
                 = Some (simd_pixel SCREEN_WIDTH SCREEN_HEIGHT center_r center_i
                           zoom y (Z.of_nat k)))).
    { intros v0 v1 Hv0 Hv1.
      destruct (store_pair row x v0 v1 ltac:(lia) Hlen)
        as (row2 & E & Hl2 & Hn0 & Hn1 & Hother).
      destruct (store_px row x v0) as [row1|]; [|discriminate].
      rewrite E.
      destruct (IH (x + 2) row2) as (row' & E' & Hl' & Hk');
        [lia | rewrite Z.add_mod by lia; rewrite Heven; reflexivity
        | lia | lia |].
      exists row'. split; [exact E'|]. split; [congruence|].
      intros k. destruct (Hk' k) as [Hlow Hhigh]. split.
      - intros Hk. rewrite Hlow by lia. apply Hother; lia.
      - intros Hk.
        destruct (Z.eq_dec (Z.of_nat k) x) as [E0|N0].
        { rewrite Hlow by lia. replace k with (Z.to_nat x) by lia.
          rewrite Hn0. rewrite Z2Nat.id by lia. congruence. }
        destruct (Z.eq_dec (Z.of_nat k) (x + 1)) as [E1|N1].
        { rewrite Hlow by lia. replace k with (Z.to_nat (x + 1)) by lia.
          rewrite Hn1 by lia. rewrite Z2Nat.id by lia. congruence. }
        apply Hhigh. lia. }
    destruct (periodicity_check _ _ && periodicity_check _ _).
    + apply Hstep; [exact (eq_sym P0) | exact (eq_sym P1)].
    + apply Hstep; [exact (eq_sym P0) | exact (eq_sym P1)].
Qed.

(** The portable row loop, likewise, with [scalar_pixel]. *)
Lemma scalar_row_from (fuel : nat) (y : Z) :
  forall (x : Z) (row : list Z),
    0 <= x ->
    Z.of_nat (length row) = SCREEN_WIDTH ->
    SCREEN_WIDTH - x <= Z.of_nat fuel ->
    exists row',
      scalar_row SCREEN_WIDTH SCREEN_HEIGHT center_r center_i zoom fuel y x row
      = Some row'
      /\ length row' = length row
      /\ forall k : nat,
           (Z.of_nat k < x -> nth_error row' k = nth_error row k)
           /\ (x <= Z.of_nat k < SCREEN_WIDTH ->
               nth_error row' k
               = Some (scalar_pixel SCREEN_WIDTH SCREEN_HEIGHT center_r center_i
                         zoom y (Z.of_nat k))).
Proof.
  induction fuel as [|fuel IH]; intros x row Hx Hlen Hfuel.
  - simpl. destruct (Z.ltb_spec x SCREEN_WIDTH); [lia|].
    exists row. split; [reflexivity|]. split; [reflexivity|].
    intros k. split; [reflexivity | lia].
  - cbn [scalar_row]. destruct (Z.ltb_spec x SCREEN_WIDTH) as [Hlt|Hge].
    2:{ exists row. split; [reflexivity|]. split; [reflexivity|].
        intros k. split; [reflexivity | lia]. }
    cbv zeta.
    assert (Hstep : forall v0,
      v0 = scalar_pixel SCREEN_WIDTH SCREEN_HEIGHT center_r center_i zoom y x ->
      exists row',
        match store_px row x v0 with
        | None => None
        | Some row1 =>
            scalar_row SCREEN_WIDTH SCREEN_HEIGHT center_r center_i zoom
              fuel y (x + 1) row1
        end = Some row'
        /\ length row' = length row
        /\ forall k : nat,
             (Z.of_nat k < x -> nth_error row' k = nth_error row k)
             /\ (x <= Z.of_nat k < SCREEN_WIDTH ->
                 nth_error row' k
                 = Some (scalar_pixel SCREEN_WIDTH SCREEN_HEIGHT center_r
                           center_i zoom y (Z.of_nat k)))).
    { intros v0 Hv0.
      destruct (store_px_length row x v0 ltac:(lia)) as (row1 & E1 & Hl1).
      rewrite E1. destruct (store_px_nth _ _ _ _ E1) as [Hn0 Hother].
      destruct (IH (x + 1) row1) as (row' & E' & Hl' & Hk'); [lia | lia | lia |].
      exists row'. split; [exact E'|]. split; [congruence|].
      intros k. destruct (Hk' k) as [Hlow Hhigh]. split.
      - intros Hk. rewrite Hlow by lia. apply Hother; lia.
      - intros Hk.
        destruct (Z.eq_dec (Z.of_nat k) x) as [E0|N0].
        { rewrite Hlow by lia. replace k with (Z.to_nat x) by lia.
          rewrite Hn0. rewrite Z2Nat.id by lia. congruence. }
        apply Hhigh. lia. }
    unfold scalar_pixel in Hstep. cbv zeta in Hstep.
    destruct (periodicity_check _ _).
    + apply Hstep; reflexivity.
    + apply Hstep; reflexivity.
Qed.

Lemma simd_pixel_opaque (y x : Z) :
  alpha_of (simd_pixel SCREEN_WIDTH SCREEN_HEIGHT center_r center_i zoom y x) = 255.
Proof.
  unfold simd_pixel. cbv zeta.
  destruct (periodicity_check _ _ && periodicity_check _ _);
    [reflexivity | apply argb_get_color_bytes_alpha].
Qed.

Lemma scalar_pixel_opaque (y x : Z) :
  alpha_of (scalar_pixel SCREEN_WIDTH SCREEN_HEIGHT center_r center_i zoom y x) = 255.
Proof.
  unfold scalar_pixel. cbv zeta.
  destruct (periodicity_check _ _);
    [reflexivity | apply argb_get_color_bytes_alpha].
Qed.

Lemma row_value_nth (f : Z -> Z) (row : list Z) :
  Z.of_nat (length row) = SCREEN_WIDTH ->
  (forall k : nat,
     0 <= Z.of_nat k < SCREEN_WIDTH -> nth_error row k = Some (f (Z.of_nat k))) ->
  row = map (fun k => f (Z.of_nat k)) (seq 0 (Z.to_nat SCREEN_WIDTH)).
Proof.
  intros Hlen Hk. apply nth_error_ext. intros k.
  rewrite nth_error_map, nth_error_seq.
  destruct (Nat.ltb_spec k (Z.to_nat SCREEN_WIDTH)) as [Hlt|Hge].
  - rewrite Hk by lia. reflexivity.
  - simpl. apply nth_error_None. lia.
Qed.

Lemma simd_row_value_eq (y : Z) (row : list Z) :
  Z.of_nat (length row) = SCREEN_WIDTH ->
  simd_row SCREEN_WIDTH SCREEN_HEIGHT center_r center_i zoom
    (Z.to_nat SCREEN_WIDTH) y 0 row
  = Some (simd_row_value SCREEN_WIDTH SCREEN_HEIGHT center_r center_i zoom y).
Proof.
  intros Hlen.
  destruct (simd_row_from (Z.to_nat SCREEN_WIDTH) y 0 row)
    as (row' & E & Hl & Hk); [lia | reflexivity | exact Hlen | lia |].
  rewrite E. f_equal. unfold simd_row_value.
  apply (row_value_nth
           (simd_pixel SCREEN_WIDTH SCREEN_HEIGHT center_r center_i zoom y)).
  - lia.
  - intros k Hk'. apply Hk. lia.
Qed.

Lemma scalar_row_value_eq (y : Z) (row : list Z) :
  Z.of_nat (length row) = SCREEN_WIDTH ->
  scalar_row SCREEN_WIDTH SCREEN_HEIGHT center_r center_i zoom
    (Z.to_nat SCREEN_WIDTH) y 0 row
  = Some (scalar_row_value SCREEN_WIDTH SCREEN_HEIGHT center_r center_i zoom y).
Proof.
  intros Hlen.
  destruct (scalar_row_from (Z.to_nat SCREEN_WIDTH) y 0 row)
    as (row' & E & Hl & Hk); [lia | exact Hlen | lia |].
  rewrite E. f_equal. unfold scalar_row_value.
  apply (row_value_nth
           (scalar_pixel SCREEN_WIDTH SCREEN_HEIGHT center_r center_i zoom y)).
  - lia.
  - intros k Hk'. apply Hk. lia.
Qed.

Lemma simd_row_value_length (y : Z) :
  0 <= SCREEN_WIDTH ->
  Z.of_nat (length (simd_row_value SCREEN_WIDTH SCREEN_HEIGHT center_r center_i
                      zoom y)) = SCREEN_WIDTH.
Proof.
  intros HW. unfold simd_row_value. rewrite length_map, length_seq. lia.
Qed.

Lemma simd_row_value_opaque (y : Z) :
  Forall (fun px => alpha_of px = 255)
    (simd_row_value SCREEN_WIDTH SCREEN_HEIGHT center_r center_i zoom y).
Proof.
  unfold simd_row_value. apply Forall_map, Forall_forall.
  intros k _. apply simd_pixel_opaque.
Qed.

Lemma scalar_row_value_opaque (y : Z) :
  Forall (fun px => alpha_of px = 255)
    (scalar_row_value SCREEN_WIDTH SCREEN_HEIGHT center_r center_i zoom y).
Proof.
  unfold scalar_row_value. apply Forall_map, Forall_forall.
  intros k _. apply scalar_pixel_opaque.
Qed.

End RowCover.

(** X6: The SSE2 row loop overwrites its row: run on two rows of
    [SCREEN_WIDTH] pixels it returns the same row, whatever they held, and
    every pixel of that row is opaque. *)
Theorem simd_row_overwrites {D : Type} {DD : Double D} {DL : Libm D}
    (SCREEN_WIDTH SCREEN_HEIGHT : Z) (center_r center_i zoom : D)
    (y : Z) (row_a row_b : list Z) :
  Z.of_nat (length row_a) = SCREEN_WIDTH ->
  Z.of_nat (length row_b) = SCREEN_WIDTH ->
  exists row',
    simd_row SCREEN_WIDTH SCREEN_HEIGHT center_r center_i zoom
      (Z.to_nat SCREEN_WIDTH) y 0 row_a = Some row'
    /\ simd_row SCREEN_WIDTH SCREEN_HEIGHT center_r center_i zoom
         (Z.to_nat SCREEN_WIDTH) y 0 row_b = Some row'
    /\ Forall (fun px => alpha_of px = 255) row'.
Proof.
  intros Ha Hb. eexists. split; [apply simd_row_value_eq; exact Ha|].
  split; [apply simd_row_value_eq; exact Hb|]. apply simd_row_value_opaque.
Qed.

Lemma simd_row_overwrites_witness :
  exists row',
    simd_row (D := R) 3 2 0%R 0%R 1%R (Z.to_nat 3) 1 0 [0; 0; 0]
    = Some row'
    /\ simd_row (D := R) 3 2 0%R 0%R 1%R (Z.to_nat 3) 1 0 [7; 8; 9]
       = Some row'
    /\ Forall (fun px => alpha_of px = 255) row'.
Proof.
  apply (simd_row_overwrites (D := R) 3 2 0%R 0%R 1%R 1
           [0; 0; 0] [7; 8; 9]); reflexivity.
Defined.

(** X7: The portable row loop stays inside its row, overwrites it whatever it
    held, and leaves every pixel opaque. *)
Theorem scalar_row_overwrites {D : Type} {DD : Double D} {DL : Libm D}
    (SCREEN_WIDTH SCREEN_HEIGHT : Z) (center_r center_i zoom : D)
    (y : Z) (row_a row_b : list Z) :
  Z.of_nat (length row_a) = SCREEN_WIDTH ->
  Z.of_nat (length row_b) = SCREEN_WIDTH ->
  exists row',
    scalar_row SCREEN_WIDTH SCREEN_HEIGHT center_r center_i zoom
      (Z.to_nat SCREEN_WIDTH) y 0 row_a = Some row'
    /\ scalar_row SCREEN_WIDTH SCREEN_HEIGHT center_r center_i zoom
         (Z.to_nat SCREEN_WIDTH) y 0 row_b = Some row'
    /\ length row' = length row_a
    /\ Forall (fun px => alpha_of px = 255) row'.
Proof.
  intros Ha Hb. eexists. split; [apply scalar_row_value_eq; exact Ha|].
  split; [apply scalar_row_value_eq; exact Hb|]. split.
  - unfold scalar_row_value. rewrite length_map, length_seq. lia.
  - apply scalar_row_value_opaque.
Qed.

Lemma scalar_row_overwrites_witness :
  exists row',
    scalar_row (D := R) 3 2 0%R 0%R 1%R (Z.to_nat 3) 1 0 [0; 0; 0]
    = Some row'
    /\ scalar_row (D := R) 3 2 0%R 0%R 1%R (Z.to_nat 3) 1 0 [7; 8; 9]
       = Some row'
    /\ length row' = length [0; 0; 0]
    /\ Forall (fun px => alpha_of px = 255) row'.
Proof.
  apply (scalar_row_overwrites (D := R) 3 2 0%R 0%R 1%R 1
           [0; 0; 0] [7; 8; 9]); reflexivity.
Defined.

(** ** [render_thread] and the frame *)

Lemma update_row_const (f : list Z -> option (list Z)) (W : Z) (v : list Z) :
  (forall row, Z.of_nat (length row) = W -> f row = Some v) ->
  Z.of_nat (length v) = W ->
  forall (px : list (list Z)) (y : nat),
    (y < length px)%nat ->
    Forall (fun row => Z.of_nat (length row) = W) px ->
    exists px',
      update_row f px y = Some px'
      /\ length px' = length px
      /\ Forall (fun row => Z.of_nat (length row) = W) px'
      /\ nth_error px' y = Some v
      /\ forall k, k <> y -> nth_error px' k = nth_error px k.
Proof.
  intros Hf Hv. induction px as [|row rest IH]; intros y Hy Hall; simpl in Hy; [lia|].
  apply Forall_cons_iff in Hall. destruct Hall as [Hrow Hrest].
  destruct y as [|y]; cbn [update_row].
  - rewrite (Hf row Hrow). cbn [option_map].
    eexists; split; [reflexivity|]. split; [reflexivity|]. split.
    + constructor; assumption.
    + split; [reflexivity|]. intros [|k] Hk; [congruence | reflexivity].
  - destruct (IH y ltac:(lia) Hrest) as (px' & -> & Hl & Hall' & Hy' & Hnth).
    cbn [option_map]. eexists; split; [reflexivity|].
    split; [simpl; congruence|]. split.
    + constructor; assumption.
    + split; [exact Hy'|].
      intros [|k] Hk; [reflexivity|]. simpl. apply Hnth. congruence.
Qed.

Section ThreadRows.

Variables SCREEN_WIDTH SCREEN_HEIGHT : Z.

(** A row loop that overwrites row [y] with [row_value y]. *)
Variable row_loop : Z -> list Z -> option (list Z).
Variable row_value : Z -> list Z.
Hypothesis row_loop_value :
  forall (y : Z) (row : list Z),
    Z.of_nat (length row) = SCREEN_WIDTH -> row_loop y row = Some (row_value y).
Hypothesis row_value_length :
  forall y : Z, Z.of_nat (length (row_value y)) = SCREEN_WIDTH.

(** The body of the loop over the rows in [render_thread]. *)
Local Abbreviation render_row :=
  (fun (acc : option (list (list Z))) (y : Z) =>
     match acc with
     | None => None
     | Some px =>
         if y <? 0 then None else update_row (row_loop y) px (Z.to_nat y)
     end).

Lemma render_rows_spec (l : list Z) :
  forall px : list (list Z),
    texture_ok SCREEN_WIDTH SCREEN_HEIGHT px ->
    (forall y, In y l -> 0 <= y < SCREEN_HEIGHT) ->
    exists px',
      fold_left render_row l (Some px) = Some px'
      /\ texture_ok SCREEN_WIDTH SCREEN_HEIGHT px'
      /\ forall k : nat,
           (In (Z.of_nat k) l -> nth_error px' k = Some (row_value (Z.of_nat k)))
           /\ (~ In (Z.of_nat k) l -> nth_error px' k = nth_error px k).
Proof.
  induction l as [|y l IH]; intros px Hok Hl.
  - exists px. split; [reflexivity|]. split; [exact Hok|].
    intros k. split; [intros [] | reflexivity].
  - cbn [fold_left].
    pose proof (Hl y (or_introl eq_refl)) as Hy.
    destruct (Z.ltb_spec y 0); [lia|].
    destruct Hok as [Hlen Hall].
    destruct (update_row_const (row_loop y) SCREEN_WIDTH (row_value y)
                (row_loop_value y) (row_value_length y) px (Z.to_nat y))
      as (px1 & -> & Hl1 & Hall1 & Hy1 & Hnth1); [lia | assumption |].
    destruct (IH px1) as (px' & E & Hok' & Hnth').
    { split; [lia | assumption]. }
    { intros y' Hy'. apply Hl. right. exact Hy'. }
    exists px'. split; [exact E|]. split; [exact Hok'|].
    intros k. destruct (Hnth' k) as [Hin Hout].
    destruct (In_dec Z.eq_dec (Z.of_nat k) l) as [Hkl|Hkl].
    + split; [intros _; apply Hin; exact Hkl|].
      intros Hn. exfalso. apply Hn. right. exact Hkl.
    + split.
      * intros [Hk|Hk]; [|contradiction].
        rewrite Hout by exact Hkl. subst y.
        rewrite Nat2Z.id in Hy1. exact Hy1.
      * intros Hn. rewrite Hout by exact Hkl. apply Hnth1.
        intros ->. apply Hn. left. lia.
Qed.

Lemma render_row_none (l : list Z) : fold_left render_row l None = None.
Proof. induction l as [|y l IH]; [reflexivity | exact IH]. Qed.

(** The rows of the threads, one thread after the other, are one pass
    over the rows of [frame_rows]. *)
Lemma render_threads_fold (num_threads : Z) (pixels : list (list Z)) :
  fold_left
    (fun acc i =>
       match acc with
       | None => None
       | Some px =>
           fold_left render_row
             (thread_rows SCREEN_HEIGHT num_threads (Z.of_nat i)) (Some px)
       end)
    (seq 0 (Z.to_nat num_threads)) (Some pixels)
  = fold_left render_row (frame_rows SCREEN_HEIGHT num_threads) (Some pixels).
Proof.
  unfold frame_rows.
  generalize (Some pixels) as acc.
  induction (seq 0 (Z.to_nat num_threads)) as [|i l IH]; intros acc.
  - reflexivity.
  - cbn [fold_left flat_map]. rewrite fold_left_app, IH. f_equal.
    destruct acc as [px|]; [reflexivity|]. symmetry. apply render_row_none.
Qed.

Lemma thread_rows_in_texture (num_threads thread_id y : Z) :
  0 < SCREEN_HEIGHT -> 0 <= thread_id < num_threads ->
  In y (thread_rows SCREEN_HEIGHT num_threads thread_id) ->
  0 <= y < SCREEN_HEIGHT.
Proof.
  intros HH Hi Hy. apply thread_rows_spec in Hy; [|lia|lia|lia].
  unfold start_y, end_y in Hy.
  rewrite Z.quot_div_nonneg in Hy by lia.
  assert (0 <= SCREEN_HEIGHT / num_threads) by (apply Z.div_pos; lia).
  pose proof (Z.mul_div_le SCREEN_HEIGHT num_threads ltac:(lia)). nia.
Qed.

End ThreadRows.

Section SimdThread.

Context {D : Type} {DD : Double D} {DL : Libm D}.
Variables SCREEN_WIDTH SCREEN_HEIGHT : Z.
Variables center_r center_i zoom : D.
Hypothesis width_pos : 0 < SCREEN_WIDTH.

(** [render_rows_spec] for the row loop of the SSE2 path. *)
Lemma simd_rows_spec (l : list Z) (px : list (list Z)) :
  texture_ok SCREEN_WIDTH SCREEN_HEIGHT px ->
  (forall y, In y l -> 0 <= y < SCREEN_HEIGHT) ->
  exists px',
    fold_left
      (fun acc y =>
         match acc with
         | None => None
         | Some px =>
             if y <? 0 then None
             else update_row
                    (simd_row SCREEN_WIDTH SCREEN_HEIGHT center_r center_i zoom
                       (Z.to_nat SCREEN_WIDTH) y 0)
                    px (Z.to_nat y)
         end) l (Some px) = Some px'
    /\ texture_ok SCREEN_WIDTH SCREEN_HEIGHT px'
    /\ forall k : nat,
         (In (Z.of_nat k) l ->
          nth_error px' k
          = Some (simd_row_value SCREEN_WIDTH SCREEN_HEIGHT center_r center_i
                    zoom (Z.of_nat k)))
         /\ (~ In (Z.of_nat k) l -> nth_error px' k = nth_error px k).
Proof.
  intros Hok Hl.
  apply (render_rows_spec SCREEN_WIDTH SCREEN_HEIGHT
           (fun y => simd_row SCREEN_WIDTH SCREEN_HEIGHT center_r center_i zoom
                       (Z.to_nat SCREEN_WIDTH) y 0)
           (simd_row_value SCREEN_WIDTH SCREEN_HEIGHT center_r center_i zoom));
    [ intros y row Hrow; apply simd_row_value_eq; exact Hrow
    | intros y; apply simd_row_value_length; lia
    | exact Hok | exact Hl ].
Qed.

(** [render_rows_spec] for the row loop of the portable path. *)
Lemma scalar_rows_spec (l : list Z) (px : list (list Z)) :
  texture_ok SCREEN_WIDTH SCREEN_HEIGHT px ->
  (forall y, In y l -> 0 <= y < SCREEN_HEIGHT) ->
  exists px',
    fold_left
      (fun acc y =>
         match acc with
         | None => None
         | Some px =>
             if y <? 0 then None
             else update_row
                    (scalar_row SCREEN_WIDTH SCREEN_HEIGHT center_r center_i zoom
                       (Z.to_nat SCREEN_WIDTH) y 0)
                    px (Z.to_nat y)
         end) l (Some px) = Some px'
    /\ texture_ok SCREEN_WIDTH SCREEN_HEIGHT px'
    /\ forall k : nat,
         (In (Z.of_nat k) l ->
          nth_error px' k
          = Some (scalar_row_value SCREEN_WIDTH SCREEN_HEIGHT center_r center_i
                    zoom (Z.of_nat k)))
         /\ (~ In (Z.of_nat k) l -> nth_error px' k = nth_error px k).
Proof.
  intros Hok Hl.
  apply (render_rows_spec SCREEN_WIDTH SCREEN_HEIGHT
           (fun y => scalar_row SCREEN_WIDTH SCREEN_HEIGHT center_r center_i zoom
                       (Z.to_nat SCREEN_WIDTH) y 0)
           (scalar_row_value SCREEN_WIDTH SCREEN_HEIGHT center_r center_i zoom));
    [ intros y row Hrow; apply scalar_row_value_eq; exact Hrow
    | intros y; unfold scalar_row_value; rewrite length_map, length_seq; lia
    | exact Hok | exact Hl ].
Qed.

Lemma render_frame_fold (num_threads : Z) (pixels : list (list Z)) :
  render_frame SCREEN_WIDTH SCREEN_HEIGHT center_r center_i zoom num_threads pixels
  = fold_left
      (fun acc y =>
         match acc with
         | None => None
         | Some px =>
             if y <? 0 then None
             else update_row
                    (simd_row SCREEN_WIDTH SCREEN_HEIGHT center_r center_i zoom
                       (Z.to_nat SCREEN_WIDTH) y 0)
                    px (Z.to_nat y)
         end) (frame_rows SCREEN_HEIGHT num_threads) (Some pixels).
Proof.
  unfold render_frame, render_thread.
  apply (render_threads_fold SCREEN_HEIGHT
           (fun y => simd_row SCREEN_WIDTH SCREEN_HEIGHT center_r center_i zoom
                       (Z.to_nat SCREEN_WIDTH) y 0)).
Qed.

End SimdThread.

(** X8: On a texture of [SCREEN_HEIGHT] rows of [SCREEN_WIDTH] pixels, a thread
    of the SSE2 build runs without a store outside the texture and returns
    a texture of the same dimensions, in which each row of its range
    [[start_y, end_y)] is the rendered row and every other row is as it
    was. *)
Theorem render_thread_rows {D : Type} {DD : Double D} {DL : Libm D}
    (SCREEN_WIDTH SCREEN_HEIGHT thread_id num_threads : Z)
    (center_r center_i zoom : D) (pixels : list (list Z)) :
  0 < SCREEN_WIDTH -> 0 < SCREEN_HEIGHT ->
  0 <= thread_id < num_threads ->
  texture_ok SCREEN_WIDTH SCREEN_HEIGHT pixels ->
  exists pixels',
    render_thread SCREEN_WIDTH SCREEN_HEIGHT thread_id num_threads
      center_r center_i zoom pixels = Some pixels'
    /\ texture_ok SCREEN_WIDTH SCREEN_HEIGHT pixels'
    /\ forall y : nat,
         nth_error pixels' y
         = if (start_y SCREEN_HEIGHT num_threads thread_id <=? Z.of_nat y)
              && (Z.of_nat y <? end_y SCREEN_HEIGHT num_threads thread_id)
           then Some (simd_row_value SCREEN_WIDTH SCREEN_HEIGHT center_r
                        center_i zoom (Z.of_nat y))
           else nth_error pixels y.
Proof.
  intros HW HH Hi Hok. unfold render_thread.
  destruct (simd_rows_spec SCREEN_WIDTH SCREEN_HEIGHT center_r center_i zoom
              HW (thread_rows SCREEN_HEIGHT num_threads thread_id) pixels Hok)
    as (px' & E & Hok' & Hrows).
  { intros y. apply thread_rows_in_texture; assumption. }
  exists px'. split; [exact E|]. split; [exact Hok'|].
  intros y. destruct (Hrows y) as [Hin Hout].
  pose proof (thread_rows_spec SCREEN_HEIGHT num_threads HH ltac:(lia)
                thread_id (Z.of_nat y) ltac:(lia)) as Hspec.
  destruct (Z.leb_spec (start_y SCREEN_HEIGHT num_threads thread_id) (Z.of_nat y));
    destruct (Z.ltb_spec (Z.of_nat y) (end_y SCREEN_HEIGHT num_threads thread_id));
    cbn [andb];
    try (apply Hout; intros Hy; apply Hspec in Hy; lia).
  apply Hin, Hspec. lia.
Qed.

Lemma render_thread_rows_witness :
  exists pixels',
    render_thread (D := R) 2 2 1 2 0%R 0%R 1%R [[0; 0]; [0; 0]] = Some pixels'
    /\ texture_ok 2 2 pixels'
    /\ forall y : nat,
         nth_error pixels' y
         = if (start_y 2 2 1 <=? Z.of_nat y) && (Z.of_nat y <? end_y 2 2 1)
           then Some (simd_row_value (D := R) 2 2 0%R 0%R 1%R (Z.of_nat y))
           else nth_error [[0; 0]; [0; 0]] y.
Proof.
  apply (render_thread_rows (D := R) 2 2 1 2 0%R 0%R 1%R [[0; 0]; [0; 0]]);
    [lia | lia | lia |].
  split; [reflexivity | repeat constructor].
Defined.

(** X9: Two threads of a frame may run in either order: the texture they leave
    is the same.  (They write different rows, and a row's new content does
    not depend on its old one.) *)
Theorem render_thread_commute {D : Type} {DD : Double D} {DL : Libm D}
    (SCREEN_WIDTH SCREEN_HEIGHT num_threads i j : Z)
    (center_r center_i zoom : D) (pixels : list (list Z)) :
  0 < SCREEN_WIDTH -> 0 < SCREEN_HEIGHT ->
  0 <= i < num_threads -> 0 <= j < num_threads ->
  texture_ok SCREEN_WIDTH SCREEN_HEIGHT pixels ->
  exists pixels_i pixels_j pixels',
    render_thread SCREEN_WIDTH SCREEN_HEIGHT i num_threads
      center_r center_i zoom pixels = Some pixels_i
    /\ render_thread SCREEN_WIDTH SCREEN_HEIGHT j num_threads
         center_r center_i zoom pixels_i = Some pixels'
    /\ render_thread SCREEN_WIDTH SCREEN_HEIGHT j num_threads
         center_r center_i zoom pixels = Some pixels_j
    /\ render_thread SCREEN_WIDTH SCREEN_HEIGHT i num_threads
         center_r center_i zoom pixels_j = Some pixels'.
Proof.
  intros HW HH Hi Hj Hok. unfold render_thread.
  assert (Hrange : forall t, 0 <= t < num_threads ->
            forall y, In y (thread_rows SCREEN_HEIGHT num_threads t) ->
                      0 <= y < SCREEN_HEIGHT).
  { intros t Ht y. apply thread_rows_in_texture; assumption. }
  destruct (simd_rows_spec SCREEN_WIDTH SCREEN_HEIGHT center_r center_i zoom
              HW (thread_rows SCREEN_HEIGHT num_threads i) pixels Hok
              (Hrange i Hi)) as (px_i & Ei & Hok_i & Hrows_i).
  destruct (simd_rows_spec SCREEN_WIDTH SCREEN_HEIGHT center_r center_i zoom
              HW (thread_rows SCREEN_HEIGHT num_threads j) px_i Hok_i
              (Hrange j Hj)) as (px_ij & Eij & Hok_ij & Hrows_ij).
  destruct (simd_rows_spec SCREEN_WIDTH SCREEN_HEIGHT center_r center_i zoom
              HW (thread_rows SCREEN_HEIGHT num_threads j) pixels Hok
              (Hrange j Hj)) as (px_j & Ej & Hok_j & Hrows_j).
  destruct (simd_rows_spec SCREEN_WIDTH SCREEN_HEIGHT center_r center_i zoom
              HW (thread_rows SCREEN_HEIGHT num_threads i) px_j Hok_j
              (Hrange i Hi)) as (px_ji & Eji & Hok_ji & Hrows_ji).
  exists px_i, px_j, px_ij. split; [exact Ei|]. split; [exact Eij|].
  split; [exact Ej|]. rewrite Eji. f_equal.
  apply nth_error_ext. intros k.
  destruct (Hrows_i k) as [Ii Oi]. destruct (Hrows_ij k) as [Iij Oij].
  destruct (Hrows_j k) as [Ij Oj]. destruct (Hrows_ji k) as [Iji Oji].
  destruct (In_dec Z.eq_dec (Z.of_nat k) (thread_rows SCREEN_HEIGHT num_threads i))
    as [Ki|Ki];
    destruct (In_dec Z.eq_dec (Z.of_nat k) (thread_rows SCREEN_HEIGHT num_threads j))
    as [Kj|Kj].
  - rewrite Iji, Iij by assumption. reflexivity.
  - rewrite Iji, Oij, Ii by assumption. reflexivity.
  - rewrite Oji, Ij, Iij by assumption. reflexivity.
  - rewrite Oji, Oj, Oij, Oi by assumption. reflexivity.
Qed.

Lemma render_thread_commute_witness :
  exists pixels_i pixels_j pixels',
    render_thread (D := R) 2 2 0 2 0%R 0%R 1%R [[0; 0]; [0; 0]] = Some pixels_i
    /\ render_thread (D := R) 2 2 1 2 0%R 0%R 1%R pixels_i = Some pixels'
    /\ render_thread (D := R) 2 2 1 2 0%R 0%R 1%R [[0; 0]; [0; 0]] = Some pixels_j
    /\ render_thread (D := R) 2 2 0 2 0%R 0%R 1%R pixels_j = Some pixels'.
Proof.
  apply (render_thread_commute (D := R) 2 2 2 0 1 0%R 0%R 1%R [[0; 0]; [0; 0]]);
    [lia | lia | lia | lia |].
  split; [reflexivity | repeat constructor].
Defined.

(** X10: A frame, with its threads taken one after the other: the rows below
    [num_threads * (SCREEN_HEIGHT / num_threads)] are rendered, and the
    [SCREEN_HEIGHT mod num_threads] rows from there on keep what the
    texture held before the frame. *)
Theorem render_frame_rows {D : Type} {DD : Double D} {DL : Libm D}
    (SCREEN_WIDTH SCREEN_HEIGHT num_threads : Z)
    (center_r center_i zoom : D) (pixels : list (list Z)) :
  0 < SCREEN_WIDTH -> 0 < SCREEN_HEIGHT -> 1 <= num_threads ->
  texture_ok SCREEN_WIDTH SCREEN_HEIGHT pixels ->
  exists pixels',
    render_frame SCREEN_WIDTH SCREEN_HEIGHT center_r center_i zoom
      num_threads pixels = Some pixels'
    /\ texture_ok SCREEN_WIDTH SCREEN_HEIGHT pixels'
    /\ forall y : nat,
         nth_error pixels' y
         = if Z.of_nat y <? SCREEN_HEIGHT - SCREEN_HEIGHT mod num_threads
           then Some (simd_row_value SCREEN_WIDTH SCREEN_HEIGHT center_r
                        center_i zoom (Z.of_nat y))
           else nth_error pixels y.
Proof.
  intros HW HH Hn Hok. rewrite render_frame_fold.
  assert (Hspec : forall y, In y (frame_rows SCREEN_HEIGHT num_threads)
                            <-> 0 <= y < SCREEN_HEIGHT - SCREEN_HEIGHT mod num_threads).
  { intros y. rewrite frame_rows_spec by assumption.
    rewrite Z.quot_div_nonneg by lia.
    pose proof (Z.div_mod SCREEN_HEIGHT num_threads ltac:(lia)). lia. }
  pose proof (Z.mod_pos_bound SCREEN_HEIGHT num_threads ltac:(lia)) as Hmod.
  destruct (simd_rows_spec SCREEN_WIDTH SCREEN_HEIGHT center_r center_i zoom
              HW (frame_rows SCREEN_HEIGHT num_threads) pixels Hok)
    as (px' & E & Hok' & Hrows).
  { intros y Hy. apply Hspec in Hy. lia. }
  exists px'. split; [exact E|]. split; [exact Hok'|].
  intros y. destruct (Hrows y) as [Hin Hout].
  destruct (Z.ltb_spec (Z.of_nat y) (SCREEN_HEIGHT - SCREEN_HEIGHT mod num_threads)).
  - apply Hin, Hspec. lia.
  - apply Hout. intros Hy. apply Hspec in Hy. lia.
Qed.

Lemma render_frame_rows_witness :
  exists pixels',
    render_frame (D := R) 2 3 0%R 0%R 1%R 2 [[0; 0]; [0; 0]; [7; 7]] = Some pixels'
    /\ texture_ok 2 3 pixels'
    /\ forall y : nat,
         nth_error pixels' y
         = if Z.of_nat y <? 3 - 3 mod 2
           then Some (simd_row_value (D := R) 2 3 0%R 0%R 1%R (Z.of_nat y))
           else nth_error [[0; 0]; [0; 0]; [7; 7]] y.
Proof.
  apply (render_frame_rows (D := R) 2 3 2 0%R 0%R 1%R [[0; 0]; [0; 0]; [7; 7]]);
    [lia | lia | lia |].
  split; [reflexivity | repeat constructor].
Defined.

(** X17: On a texture of [SCREEN_HEIGHT] rows of [SCREEN_WIDTH] pixels, a
    thread of the portable build runs without a store outside the texture
    and returns a texture of the same dimensions, in which each row of its
    range [[start_y, end_y)] is the row rendered by the portable path and
    every other row is as it was. *)
Theorem render_thread_portable_rows {D : Type} {DD : Double D} {DL : Libm D}
    (SCREEN_WIDTH SCREEN_HEIGHT thread_id num_threads : Z)
    (center_r center_i zoom : D) (pixels : list (list Z)) :
  0 < SCREEN_WIDTH -> 0 < SCREEN_HEIGHT ->
  0 <= thread_id < num_threads ->
  texture_ok SCREEN_WIDTH SCREEN_HEIGHT pixels ->
  exists pixels',
    render_thread_portable SCREEN_WIDTH SCREEN_HEIGHT center_r center_i zoom
      thread_id num_threads pixels = Some pixels'
    /\ texture_ok SCREEN_WIDTH SCREEN_HEIGHT pixels'
    /\ forall y : nat,
         nth_error pixels' y
         = if (start_y SCREEN_HEIGHT num_threads thread_id <=? Z.of_nat y)
              && (Z.of_nat y <? end_y SCREEN_HEIGHT num_threads thread_id)
           then Some (scalar_row_value SCREEN_WIDTH SCREEN_HEIGHT center_r
                        center_i zoom (Z.of_nat y))
           else nth_error pixels y.
Proof.
  intros HW HH Hi Hok. unfold render_thread_portable.
  destruct (scalar_rows_spec SCREEN_WIDTH SCREEN_HEIGHT center_r center_i zoom
              HW (thread_rows SCREEN_HEIGHT num_threads thread_id) pixels Hok)
    as (px' & E & Hok' & Hrows).
  { intros y. apply thread_rows_in_texture; assumption. }
  exists px'. split; [exact E|]. split; [exact Hok'|].
  intros y. destruct (Hrows y) as [Hin Hout].
  pose proof (thread_rows_spec SCREEN_HEIGHT num_threads HH ltac:(lia)
                thread_id (Z.of_nat y) ltac:(lia)) as Hspec.
  destruct (Z.leb_spec (start_y SCREEN_HEIGHT num_threads thread_id) (Z.of_nat y));
    destruct (Z.ltb_spec (Z.of_nat y) (end_y SCREEN_HEIGHT num_threads thread_id));
    cbn [andb];
    try (apply Hout; intros Hy; apply Hspec in Hy; lia).
  apply Hin, Hspec. lia.
Qed.

Lemma render_thread_portable_rows_witness :
  exists pixels',
    render_thread_portable (D := float) (DL := model_libm) 3 2
      0%float 0%float 1%float 1 2 [[0; 0; 0]; [7; 8; 9]] = Some pixels'
    /\ texture_ok 3 2 pixels'
    /\ forall y : nat,
         nth_error pixels' y
         = if (start_y 2 2 1 <=? Z.of_nat y) && (Z.of_nat y <? end_y 2 2 1)
           then Some (scalar_row_value (D := float) (DL := model_libm) 3 2
                        0%float 0%float 1%float (Z.of_nat y))
           else nth_error [[0; 0; 0]; [7; 8; 9]] y.
Proof.
  apply (render_thread_portable_rows (D := float) (DL := model_libm) 3 2 1 2
           0%float 0%float 1%float [[0; 0; 0]; [7; 8; 9]]);
    [lia | lia | lia |].
  split; [reflexivity | repeat constructor].
Defined.

(** ** FrameScheduler: the ranges stay inside the texture *)

(** X11: The row range of a thread of the frame is ascending and lies inside
    the texture, so [start_y] and [end_y] are values of an [int] no larger
    than [SCREEN_HEIGHT]. *)
Theorem thread_range_in_texture (SCREEN_HEIGHT num_threads thread_id : Z) :
  0 < SCREEN_HEIGHT -> 0 <= thread_id < num_threads ->
  0 <= start_y SCREEN_HEIGHT num_threads thread_id
  /\ start_y SCREEN_HEIGHT num_threads thread_id
     <= end_y SCREEN_HEIGHT num_threads thread_id
  /\ end_y SCREEN_HEIGHT num_threads thread_id <= SCREEN_HEIGHT.
Proof.
  intros HH Hi. unfold start_y, end_y.
  rewrite Z.quot_div_nonneg by lia.
  assert (0 <= SCREEN_HEIGHT / num_threads) by (apply Z.div_pos; lia).
  pose proof (Z.mul_div_le SCREEN_HEIGHT num_threads ltac:(lia)). nia.
Qed.

Lemma thread_range_in_texture_witness :
  0 <= start_y 1080 16 15
  /\ start_y 1080 16 15 <= end_y 1080 16 15
  /\ end_y 1080 16 15 <= 1080.
Proof. apply (thread_range_in_texture 1080 16 15); lia. Defined.

(** ** ScalarKernel: the range of the count *)

Lemma escape_loop_range {D : Type} {DD : Double D}
    (fuel : nat) (cr ci zr zi : D) (n : Z) :
  n <= escape_loop fuel cr ci zr zi n <= n + Z.of_nat fuel.
Proof.
  revert zr zi n. induction fuel as [|fuel IH]; intros zr zi n.
  - simpl. lia.
  - cbn [escape_loop]. cbv zeta.
    destruct (ge _ _); [lia|].
    specialize (IH (add (sub (mul zr zr) (mul zi zi)) cr)
                   (add (mul (mul (of_int 2) zr) zi) ci) (n + 1)).
    lia.
Qed.

(** X12: The scalar loop returns a count between 0 and the limit, for every
    arithmetic and every point, NaN and the infinities included; with a
    limit below 1 it returns 0. *)
Theorem escape_iterations_range {D : Type} {DD : Double D}
    (cr ci : D) (max_iter : Z) :
  0 <= escape_iterations cr ci max_iter <= Z.max 0 max_iter.
Proof.
  unfold escape_iterations.
  pose proof (escape_loop_range (Z.to_nat max_iter) cr ci (of_int 0) (of_int 0) 0).
  lia.
Qed.

(** ** ViewportController: leaving the loop *)

Section Quit.

Context {D : Type} {DD : Double D}.
Variables SCREEN_WIDTH SCREEN_HEIGHT : Z.

Lemma handle_event_stopped (v : Viewport) (e : SDL_Event) :
  is_running v = false ->
  is_running (handle_event SCREEN_WIDTH SCREEN_HEIGHT v e) = false.
Proof.
  intros Hv. destruct e as [|button x y|]; simpl; try assumption; [reflexivity|].
  destruct (button =? SDL_BUTTON_LEFT); assumption.
Qed.

Lemma handle_events_stopped (events : list SDL_Event) (v : Viewport) :
  is_running v = false ->
  is_running (fold_left (handle_event SCREEN_WIDTH SCREEN_HEIGHT) events v) = false.
Proof.
  revert v. induction events as [|e events IH]; intros v Hv; simpl.
  - exact Hv.
  - apply IH, handle_event_stopped, Hv.
Qed.

Lemma handle_events_quit (events : list SDL_Event) (v : Viewport) :
  In SDL_QUIT events ->
  is_running (fold_left (handle_event SCREEN_WIDTH SCREEN_HEIGHT) events v) = false.
Proof.
  revert v. induction events as [|e events IH]; intros v Hin; [destruct Hin|].
  simpl. destruct Hin as [->|Hin].
  - apply handle_events_stopped. reflexivity.
  - apply IH, Hin.
Qed.

Lemma handle_event_running (v : Viewport) (e : SDL_Event) :
  e <> SDL_QUIT ->
  is_running (handle_event SCREEN_WIDTH SCREEN_HEIGHT v e) = is_running v.
Proof.
  intros He. destruct e as [|button x y|]; simpl; try reflexivity; [congruence|].
  destruct (button =? SDL_BUTTON_LEFT); reflexivity.
Qed.

Lemma handle_events_running (events : list SDL_Event) (v : Viewport) :
  ~ In SDL_QUIT events ->
  is_running (fold_left (handle_event SCREEN_WIDTH SCREEN_HEIGHT) events v)
  = is_running v.
Proof.
  revert v. induction events as [|e events IH]; intros v Hin; simpl.
  - reflexivity.
  - rewrite IH by (intros H; apply Hin; right; exact H).
    apply handle_event_running. intros ->. apply Hin. left. reflexivity.
Qed.

End Quit.

(** X13: A quit event among the events of a turn ends the loop after that turn:
    the turn is completed (the remaining events are handled, [zoom] is
    multiplied, the frame is drawn), no later turn is taken, and
    [is_running] is cleared. *)
Theorem main_loop_quit {D : Type} {DD : Double D}
    (SCREEN_WIDTH SCREEN_HEIGHT : Z) (v : Viewport)
    (events : list SDL_Event) (rest : list (list SDL_Event)) :
  is_running v = true -> In SDL_QUIT events ->
  main_loop SCREEN_WIDTH SCREEN_HEIGHT v (events :: rest)
  = frame SCREEN_WIDTH SCREEN_HEIGHT v events
  /\ is_running (main_loop SCREEN_WIDTH SCREEN_HEIGHT v (events :: rest)) = false.
Proof.
  intros Hv Hq. cbn [main_loop]. rewrite Hv.
  assert (Hstop : is_running (frame SCREEN_WIDTH SCREEN_HEIGHT v events) = false).
  { unfold frame. cbn [is_running]. apply handle_events_quit, Hq. }
  assert (E : main_loop SCREEN_WIDTH SCREEN_HEIGHT
                (frame SCREEN_WIDTH SCREEN_HEIGHT v events) rest
              = frame SCREEN_WIDTH SCREEN_HEIGHT v events).
  { destruct rest as [|events' rest']; cbn [main_loop]; [reflexivity|].
    rewrite Hstop. reflexivity. }
  rewrite E. split; [reflexivity | exact Hstop].
Qed.

Lemma main_loop_quit_witness :
  main_loop (D := float) 800 600 initial_viewport
    ([SDL_QUIT; SDL_MOUSEBUTTONDOWN 1 0 0] :: [[]; []])
  = frame 800 600 initial_viewport [SDL_QUIT; SDL_MOUSEBUTTONDOWN 1 0 0]
  /\ is_running
       (main_loop (D := float) 800 600 initial_viewport
          ([SDL_QUIT; SDL_MOUSEBUTTONDOWN 1 0 0] :: [[]; []])) = false.
Proof.
  apply (main_loop_quit (D := float) 800 600 initial_viewport
           [SDL_QUIT; SDL_MOUSEBUTTONDOWN 1 0 0] [[]; []]);
    [reflexivity | left; reflexivity].
Defined.

(** X14: Without a quit event the loop takes every turn: it is still running
    after them and [zoom] has been multiplied once per turn. *)
Theorem main_loop_no_quit {D : Type} {DD : Double D}
    (SCREEN_WIDTH SCREEN_HEIGHT : Z) (frames : list (list SDL_Event))
    (v : Viewport) :
  is_running v = true ->
  (forall events, In events frames -> ~ In SDL_QUIT events) ->
  is_running (main_loop SCREEN_WIDTH SCREEN_HEIGHT v frames) = true
  /\ zoom (main_loop SCREEN_WIDTH SCREEN_HEIGHT v frames)
     = zoom_after (length frames) (zoom v).
Proof.
  revert v. induction frames as [|events frames IH]; intros v Hv Hq.
  - split; [exact Hv | reflexivity].
  - cbn [main_loop]. rewrite Hv.
    destruct (IH (frame SCREEN_WIDTH SCREEN_HEIGHT v events)) as [Hr Hz].
    + unfold frame. cbn [is_running].
      rewrite handle_events_running by (apply Hq; left; reflexivity).
      exact Hv.
    + intros ev Hev. apply Hq. right. exact Hev.
    + split; [exact Hr|]. rewrite Hz, frame_zoom. reflexivity.
Qed.

Lemma main_loop_no_quit_witness :
  is_running
    (main_loop (D := float) 800 600 initial_viewport
       [[SDL_MOUSEBUTTONDOWN 1 0 0]; []; [SDL_OTHER]]) = true
  /\ zoom (main_loop (D := float) 800 600 initial_viewport
             [[SDL_MOUSEBUTTONDOWN 1 0 0]; []; [SDL_OTHER]])
     = zoom_after (length [[SDL_MOUSEBUTTONDOWN 1 0 0]; []; [SDL_OTHER]])
         (zoom (initial_viewport (D := float))).
Proof.
  apply (main_loop_no_quit (D := float) 800 600
           [[SDL_MOUSEBUTTONDOWN 1 0 0]; []; [SDL_OTHER]] initial_viewport);
    [reflexivity|].
  intros events [<-|[<-|[<-|[]]]] H; simpl in H; intuition discriminate.
Defined.

(** ** The click and the renderer at binary64 *)

(** The click computes its point as [(x - W/2) * (4 * aspect * zoom) / W],
    the renderer as [(x - W/2) * ((4 * aspect * zoom) / W)].  The two
    round differently: in the first frame a click on the pixel [(0, 0)]
    moves the centre next to, not onto, the point the renderer assigned to
    that pixel. *)
Lemma click_point_binary64_differs :
  let v := initial_viewport (D := float) in
  center_r (handle_event 800 600 v (SDL_MOUSEBUTTONDOWN SDL_BUTTON_LEFT 0 0))
  <> pixel_cr 800 600 (center_r v) (zoom v) 0.
Proof.
  cbv zeta. intros E.
  apply (f_equal (fun f => PrimFloat.Leibniz.eqb f
           (pixel_cr 800 600 (center_r (initial_viewport (D := float)))
              (zoom (initial_viewport (D := float))) 0))) in E.
  vm_compute in E. discriminate.
Qed.

(** ** Exact arithmetic: the region of the filter *)

Section ExactFilter.

Local Open Scope R_scope.

(** The region of the filter lies inside the disc of radius 2: the
    period-2 disc has radius 1/4 around -1, and on the cardioid test
    [q * (q + p) < ci^2 / 4 <= q / 4] forces [q + p < 1/4], which fails
    outside that disc. *)
Lemma filter_region_bounded (cr ci : R) :
  (cr + 1) * (cr + 1) + ci * ci < 1 / 16
  \/ ((cr - 1 / 4) * (cr - 1 / 4) + ci * ci)
     * ((cr - 1 / 4) * (cr - 1 / 4) + ci * ci + (cr - 1 / 4))
     < 1 / 4 * ci * ci ->
  cr * cr + ci * ci < 4.
Proof.
  intros [Hb|Hc].
  - nra.
  - destruct (Rlt_le_dec (cr * cr + ci * ci) 4) as [Hlt|Hge]; [exact Hlt|].
    exfalso.
    set (p := cr - 1 / 4) in *.
    set (q := p * p + ci * ci) in *.
    assert (Hq : ci * ci <= q) by (unfold q; nra).
    assert (Hq0 : 0 <= q) by (unfold q; nra).
    assert (Hqp : 1 / 4 <= q + p).
    { unfold q, p. nra. }
    nra.
Qed.

End ExactFilter.

(** X18: In exact arithmetic a point the filter accepts lies strictly inside
    the disc of radius 2, so it passes the escape tests of the first two
    turns of the loop: the filter never blackens a pixel that the kernel
    would give the count 1. *)
Theorem periodicity_check_inside_disc (cr ci : R) (max_iter : Z) :
  periodicity_check (D := R) cr ci = true ->
  2 <= max_iter ->
  (cr * cr + ci * ci < 4)%R
  /\ 2 <= escape_iterations (D := R) cr ci max_iter.
Proof.
  intros Hp Hm.
  assert (Hdisc : (cr * cr + ci * ci < 4)%R).
  { apply filter_region_bounded.
    unfold periodicity_check in Hp. cbv zeta in Hp.
    unfold dec in Hp. cbn [of_int add sub mul div lt exact] in Hp.
    destruct (Rltb ((cr + 1) * (cr + 1) + ci * ci) (1 / 16)) eqn:E1.
    - left. apply Rltb_true. exact E1.
    - right.
      destruct (Rltb _ _) eqn:E2 in Hp; [|discriminate].
      apply Rltb_true in E2. exact E2. }
  split; [exact Hdisc|].
  unfold escape_iterations.
  destruct (Z.to_nat max_iter) as [|[|fuel]] eqn:Ef; [lia | lia |].
  cbn [escape_loop]. cbv zeta. cbn [of_int add sub mul ge exact].
  rewrite !Rgeb_Rltb.
  replace (Rltb (0 * 0 + 0 * 0) 4) with true
    by (symmetry; apply Rltb_true; lra).
  cbn [negb].
  replace (Rltb _ 4) with true.
  2:{ symmetry. apply Rltb_true. nra. }
  cbn [negb].
  match goal with
  | |- _ <= escape_loop ?f ?a ?b ?c ?d ?n =>
      pose proof (escape_loop_range f a b c d n)
  end.
  lia.
Qed.

Lemma periodicity_check_inside_disc_witness :
  ((-1) * (-1) + 0 * 0 < 4)%R
  /\ 2 <= escape_iterations (D := R) (-1)%R 0%R 255.
Proof.
  apply (periodicity_check_inside_disc (-1)%R 0%R 255); [|lia].
  unfold periodicity_check. cbv zeta. unfold dec.
  cbn [of_int add sub mul div lt exact].
  replace (Rltb ((-1 + 1) * (-1 + 1) + 0 * 0) (1 / 16)) with true
    by (symmetry; apply Rltb_true; lra).
  reflexivity.
Defined.

(** ** VectorKernel at binary64: the lane counts *)

Lemma count_exact_all (k : Z) : 0 <= k <= 255 -> count_exact k = true.
Proof.
  intros Hk.
  assert (H : forallb (fun n => count_exact (Z.of_nat n)) (seq 0 256) = true)
    by (vm_compute; reflexivity).
  rewrite forallb_forall in H.
  specialize (H (Z.to_nat k)). rewrite Z2Nat.id in H by lia.
  apply H, in_seq. lia.
Qed.

Lemma count_step (k : Z) (m : bool) :
  0 <= k <= 255 ->
  PrimFloat.add (float_of_Z k) (if m then float_of_Z 1 else float_of_Z 0)
  = float_of_Z (if m then k + 1 else k).
Proof.
  intros Hk. pose proof (count_exact_all k Hk) as H. unfold count_exact in H.
  apply andb_prop in H. destruct H as [H _].
  apply andb_prop in H. destruct H as [H1 H0].
  apply FloatAxioms.Leibniz.eqb_spec in H1, H0.
  destruct m; assumption.
Qed.

Lemma simd_loop_counts (fuel : nat) :
  forall (cr ci zr zi : m128d (D := float)) (k0 k1 i : Z),
    0 <= k0 <= i -> 0 <= k1 <= i -> i + Z.of_nat fuel <= 255 ->
    exists a b : Z,
      simd_loop (D := float) fuel cr ci zr zi (float_of_Z k0, float_of_Z k1)
      = (float_of_Z a, float_of_Z b)
      /\ 0 <= a <= i + Z.of_nat fuel /\ 0 <= b <= i + Z.of_nat fuel.
Proof.
  induction fuel as [|fuel IH]; intros cr ci zr zi k0 k1 i H0 H1 Hi.
  - exists k0, k1. split; [reflexivity | lia].
  - cbn [simd_loop]. cbv zeta.
    destruct (mm_movemask_pd _ =? 0).
    + exists k0, k1. split; [reflexivity | lia].
    + set (zr' := mm_add_pd (mm_sub_pd (mm_mul_pd zr zr) (mm_mul_pd zi zi)) cr).
      set (zi' := mm_add_pd (mm_mul_pd (mm_mul_pd zr zi) two) ci).
      set (m := mm_cmplt_pd (mm_add_pd (mm_mul_pd zr zr) (mm_mul_pd zi zi)) fours).
      unfold mm_add_pd, mm_and_pd, ones, mm_set1_pd.
      cbn [fst snd of_int add binary64].
      rewrite !count_step by lia.
      destruct (IH cr ci zr' zi'
                  (if fst m then k0 + 1 else k0) (if snd m then k1 + 1 else k1)
                  (i + 1)) as (a & b & E & Ha & Hb);
        [ destruct (fst m); lia | destruct (snd m); lia | lia | ].
      exists a, b. split; [exact E | lia].
Qed.

(** X19: At binary64 each lane of the SSE2 loop ends with the double of an
    integer between 0 and [MAX_ITERATIONS], whatever the coordinates are
    (NaN and the infinities included): the cast [(int)n_values[k]] is
    defined and gives a count that [get_color] maps. *)
Theorem simd_iterations_range (cr_base0 cr_base1 ci_base : float) :
  0 <= fst (simd_iterations (D := float) cr_base0 cr_base1 ci_base)
       <= MAX_ITERATIONS
  /\ 0 <= snd (simd_iterations (D := float) cr_base0 cr_base1 ci_base)
          <= MAX_ITERATIONS.
Proof.
  unfold simd_iterations, mm_storeu_pd, mm_setzero_pd. cbv zeta.
  cbn [of_int to_int binary64].
  destruct (simd_loop_counts (Z.to_nat MAX_ITERATIONS)
              (mm_set_pd cr_base1 cr_base0) (mm_set1_pd ci_base)
              (float_of_Z 0, float_of_Z 0) (float_of_Z 0, float_of_Z 0) 0 0 0)
    as (a & b & E & Ha & Hb); [lia | lia | unfold MAX_ITERATIONS; lia |].
  rewrite E. cbn [fst snd].
  assert (Hcast : forall k, 0 <= k <= 255 -> float_to_Z (float_of_Z k) = k).
  { intros k Hk. pose proof (count_exact_all k Hk) as H. unfold count_exact in H.
    apply andb_prop in H. destruct H as [_ H]. apply Z.eqb_eq in H. exact H. }
  unfold MAX_ITERATIONS in *.
  rewrite !Hcast by lia. lia.
Qed.

(** ** Mirror symmetry at binary64

    Rounding to nearest is symmetric in the sign, so flipping the sign of
    [ci] flips the sign of every [zi] of the orbit, up to the signs of
    zeros, and changes no test. *)

Module Mirror.

Lemma binary_round_aux_opp (s : bool) (m e : Z) (l : location) :
  binary_round_aux prec emax (negb s) m e l
  = SFopp (binary_round_aux prec emax s m e l).
Proof.
  unfold binary_round_aux.
  destruct (shr_fexp prec emax m e l) as [mrs' e'].
  destruct (shr_fexp prec emax _ e' loc_Exact) as [mrs'' e''].
  destruct (shr_m mrs''); [reflexivity | | reflexivity].
  destruct (e'' <=? emax - prec); reflexivity.
Qed.

Lemma binary_round_opp (s : bool) (m : positive) (e : Z) :
  binary_round prec emax (negb s) m e = SFopp (binary_round prec emax s m e).
Proof.
  unfold binary_round.
  destruct (shl_align m e _) as [mz ez]. apply binary_round_aux_opp.
Qed.

Lemma SFopp_involutive (x : spec_float) : SFopp (SFopp x) = x.
Proof. destruct x as [s|s| |s m e]; simpl; try rewrite negb_involutive; reflexivity. Qed.

Lemma SFmul_opp_r (x y : spec_float) :
  SFmul prec emax x (SFopp y) = SFopp (SFmul prec emax x y).
Proof.
  destruct x as [sx|sx| |sx mx ex], y as [sy|sy| |sy my ey];
    cbn [SFmul SFopp]; try reflexivity;
    try (destruct sx, sy; reflexivity).
  rewrite <- binary_round_aux_opp. destruct sx, sy; reflexivity.
Qed.

Lemma SFmul_opp_l (x y : spec_float) :
  SFmul prec emax (SFopp x) y = SFopp (SFmul prec emax x y).
Proof.
  destruct x as [sx|sx| |sx mx ex], y as [sy|sy| |sy my ey];
    cbn [SFmul SFopp]; try reflexivity;
    try (destruct sx, sy; reflexivity).
  rewrite <- binary_round_aux_opp. destruct sx, sy; reflexivity.
Qed.

(** The sum of the negated operands is the negated sum, or both sums are
    zeros. *)
Lemma SFadd_opp (x y : spec_float) :
  SFadd prec emax (SFopp x) (SFopp y) = SFopp (SFadd prec emax x y)
  \/ exists s s' : bool,
       SFadd prec emax x y = S754_zero s
       /\ SFadd prec emax (SFopp x) (SFopp y) = S754_zero s'.
Proof.
  destruct x as [sx|sx| |sx mx ex], y as [sy|sy| |sy my ey];
    cbn [SFadd SFopp];
    try (left; reflexivity);
    try (destruct sx, sy; cbn [negb];
         first [ left; reflexivity | right; eexists; eexists; split; reflexivity ]).
  cbv zeta.
  generalize (Z.pos (fst (shl_align mx ex (Z.min ex ey)))) as px.
  generalize (Z.pos (fst (shl_align my ey (Z.min ex ey)))) as py.
  intros py px.
  assert (E : cond_Zopp (negb sx) px + cond_Zopp (negb sy) py
              = - (cond_Zopp sx px + cond_Zopp sy py)).
  { destruct sx, sy; cbn [cond_Zopp negb]; lia. }
  rewrite E.
  destruct (cond_Zopp sx px + cond_Zopp sy py) as [|m|m]; cbn [Z.opp binary_normalize].
  - right. exists false, false. split; reflexivity.
  - left. apply (binary_round_opp false).
  - left. rewrite <- (binary_round_opp true). reflexivity.
Qed.

Lemma mul_opp_opp (a b : float) :
  PrimFloat.mul (PrimFloat.opp a) (PrimFloat.opp b) = PrimFloat.mul a b.
Proof.
  apply Prim2SF_inj.
  rewrite !mul_spec, !opp_spec. unfold SF64mul.
  rewrite SFmul_opp_l, SFmul_opp_r. apply SFopp_involutive.
Qed.

Lemma mul_opp_r (a b : float) :
  PrimFloat.mul a (PrimFloat.opp b) = PrimFloat.opp (PrimFloat.mul a b).
Proof.
  apply Prim2SF_inj.
  rewrite opp_spec, !mul_spec, opp_spec. apply SFmul_opp_r.
Qed.

Lemma mirrored_zero : mirrored (float_of_Z 0) (float_of_Z 0).
Proof. right. exists false, false. split; reflexivity. Qed.

Lemma mirrored_sq (a b : float) :
  mirrored a b -> PrimFloat.mul b b = PrimFloat.mul a a.
Proof.
  intros [E|(s & s' & Ea & Eb)]; apply Prim2SF_inj; rewrite !mul_spec.
  - rewrite E. unfold SF64mul.
    rewrite SFmul_opp_l, SFmul_opp_r. apply SFopp_involutive.
  - rewrite Ea, Eb. destruct s, s'; reflexivity.
Qed.

Lemma mirrored_mul (c a b : float) :
  mirrored a b -> mirrored (PrimFloat.mul c a) (PrimFloat.mul c b).
Proof.
  unfold mirrored. rewrite !mul_spec.
  intros [E|(s & s' & Ea & Eb)].
  - left. rewrite E. apply SFmul_opp_r.
  - rewrite Ea, Eb. unfold SF64mul.
    destruct (Prim2SF c) as [sc|sc| |sc mc ec]; cbn [SFmul SFopp];
      first [ left; reflexivity
            | right; eexists; eexists; split; reflexivity ].
Qed.

Lemma mirrored_add (a b c : float) :
  mirrored a b ->
  mirrored (PrimFloat.add a c) (PrimFloat.add b (PrimFloat.opp c)).
Proof.
  unfold mirrored. rewrite !add_spec, opp_spec. unfold SF64add.
  intros [E|(s & s' & Ea & Eb)].
  - rewrite E. destruct (SFadd_opp (Prim2SF a) (Prim2SF c)) as [H|(t & t' & H & H')].
    + left. exact H.
    + right. exists t, t'. split; assumption.
  - rewrite Ea, Eb.
    destruct (Prim2SF c) as [sc|sc| |sc mc ec]; cbn [SFadd SFopp];
      try (left; reflexivity).
    right. destruct s, s', sc; cbn [negb]; eexists; eexists; split; reflexivity.
Qed.

Lemma escape_loop_mirrored (fuel : nat) (cr ci zr : float) :
  forall (zi zi' : float) (n : Z),
    mirrored zi zi' ->
    escape_loop (D := float) fuel cr (PrimFloat.opp ci) zr zi' n
    = escape_loop (D := float) fuel cr ci zr zi n.
Proof.
  revert zr. induction fuel as [|fuel IH]; intros zr zi zi' n Hm; [reflexivity|].
  cbn [escape_loop]. cbv zeta. cbn [of_int add sub mul ge binary64].
  rewrite (mirrored_sq zi zi' Hm).
  destruct (PrimFloat.leb _ _); [reflexivity|].
  apply IH. apply mirrored_add, mirrored_mul, Hm.
Qed.

End Mirror.

(** X20: At binary64, for all doubles: the filter and the scalar loop give a
    point and its mirror image in the real axis the same answer. *)
Theorem mirror_symmetry_binary64 (cr ci : float) (max_iter : Z) :
  periodicity_check (D := float) cr (PrimFloat.opp ci)
  = periodicity_check (D := float) cr ci
  /\ escape_iterations (D := float) cr (PrimFloat.opp ci) max_iter
     = escape_iterations (D := float) cr ci max_iter.
Proof.
  split.
  - unfold periodicity_check. cbv zeta.
    cbn [of_int add sub mul lt binary64].
    rewrite Mirror.mul_opp_opp.
    rewrite (Mirror.mul_opp_r (dec 1 4) ci), Mirror.mul_opp_opp.
    reflexivity.
  - unfold escape_iterations.
    apply Mirror.escape_loop_mirrored, Mirror.mirrored_zero.
Qed.

(** ** A NaN coordinate at binary64 *)

Module NaN.

Lemma SFadd_nan_r (x : spec_float) : SFadd prec emax x S754_nan = S754_nan.
Proof. destruct x; reflexivity. Qed.

Lemma SFleb_nan_r (x : spec_float) : SFleb x S754_nan = false.
Proof. destruct x; reflexivity. Qed.

Lemma mul_nan_l (a b : float) :
  Prim2SF a = S754_nan -> Prim2SF (PrimFloat.mul a b) = S754_nan.
Proof. intros E. rewrite mul_spec, E. reflexivity. Qed.

Lemma add_nan_l (a b : float) :
  Prim2SF a = S754_nan -> Prim2SF (PrimFloat.add a b) = S754_nan.
Proof. intros E. rewrite add_spec, E. reflexivity. Qed.

Lemma add_nan_r (a b : float) :
  Prim2SF b = S754_nan -> Prim2SF (PrimFloat.add a b) = S754_nan.
Proof. intros E. rewrite add_spec, E. apply SFadd_nan_r. Qed.

Lemma sub_nan_l (a b : float) :
  Prim2SF a = S754_nan -> Prim2SF (PrimFloat.sub a b) = S754_nan.
Proof. intros E. rewrite sub_spec, E. reflexivity. Qed.

Lemma ltb_nan_l (a b : float) :
  Prim2SF a = S754_nan -> PrimFloat.ltb a b = false.
Proof. intros E. rewrite FloatAxioms.ltb_spec, E. reflexivity. Qed.

Lemma leb_nan_r (a b : float) :
  Prim2SF b = S754_nan -> PrimFloat.leb a b = false.
Proof. intros E. rewrite FloatAxioms.leb_spec, E. apply SFleb_nan_r. Qed.

(** [|z|^2] is NaN as soon as one part of [z] is. *)
Lemma mag2_nan (zr zi : float) :
  Prim2SF zr = S754_nan \/ Prim2SF zi = S754_nan ->
  Prim2SF (PrimFloat.add (PrimFloat.mul zr zr) (PrimFloat.mul zi zi)) = S754_nan.
Proof.
  intros [E|E].
  - apply add_nan_l, mul_nan_l, E.
  - apply add_nan_r, mul_nan_l, E.
Qed.

(** The next [z] has a NaN part as soon as [c] has one. *)
Lemma next_nan (cr ci a b : float) :
  Prim2SF cr = S754_nan \/ Prim2SF ci = S754_nan ->
  Prim2SF (PrimFloat.add a cr) = S754_nan
  \/ Prim2SF (PrimFloat.add b ci) = S754_nan.
Proof. intros [E|E]; [left | right]; apply add_nan_r, E. Qed.

Lemma escape_loop_nan (fuel : nat) (cr ci : float) :
  Prim2SF cr = S754_nan \/ Prim2SF ci = S754_nan ->
  forall (zr zi : float) (n : Z),
    Prim2SF zr = S754_nan \/ Prim2SF zi = S754_nan ->
    escape_loop (D := float) fuel cr ci zr zi n = n + Z.of_nat fuel.
Proof.
  intros Hc. induction fuel as [|fuel IH]; intros zr zi n Hz.
  - simpl. lia.
  - cbn [escape_loop]. cbv zeta. cbn [of_int add sub mul ge binary64].
    rewrite (leb_nan_r _ _ (mag2_nan zr zi Hz)).
    rewrite IH by (apply next_nan, Hc). lia.
Qed.

Lemma simd_loop_nan (fuel : nat) (cr ci : m128d (D := float)) :
  Prim2SF (fst cr) = S754_nan \/ Prim2SF (fst ci) = S754_nan ->
  forall zr zi iterations : m128d (D := float),
    Prim2SF (fst zr) = S754_nan \/ Prim2SF (fst zi) = S754_nan ->
    fst iterations = float_of_Z 1 ->
    fst (simd_loop (D := float) fuel cr ci zr zi iterations) = float_of_Z 1.
Proof.
  intros Hc. induction fuel as [|fuel IH]; intros zr zi iterations Hz Hi.
  - exact Hi.
  - cbn [simd_loop]. cbv zeta.
    destruct (mm_movemask_pd _ =? 0); [exact Hi|].
    apply IH.
    + unfold mm_add_pd. cbn [fst]. apply next_nan, Hc.
    + unfold mm_add_pd at 1. cbn [fst]. rewrite Hi.
      unfold mm_and_pd, mm_cmplt_pd, mm_add_pd, mm_mul_pd. cbn [fst].
      cbn [lt add mul binary64].
      rewrite (ltb_nan_l _ _ (mag2_nan (fst zr) (fst zi) Hz)).
      reflexivity.
Qed.

End NaN.

(** X21: At binary64, when a coordinate of a point is NaN the filter rejects
    the point, the scalar loop runs to its limit (black, for
    [MAX_ITERATIONS]) and the lane of the SSE2 loop stops counting after
    the first turn (the count 1, a colour): the two builds differ on such
    a point, whatever the other lane holds. *)
Theorem nan_coordinate (cr ci cr_other : float) (max_iter : Z) :
  cr = PrimFloat.nan \/ ci = PrimFloat.nan ->
  periodicity_check (D := float) cr ci = false
  /\ escape_iterations (D := float) cr ci max_iter = Z.max 0 max_iter
  /\ fst (simd_iterations (D := float) cr cr_other ci) = 1.
Proof.
  intros Hnan.
  assert (Hc : Prim2SF cr = S754_nan \/ Prim2SF ci = S754_nan).
  { destruct Hnan as [->| ->]; [left | right]; reflexivity. }
  split; [|split].
  - unfold periodicity_check. cbv zeta. cbn [of_int add sub mul lt binary64].
    rewrite NaN.ltb_nan_l.
    2:{ destruct Hc as [E|E].
        - apply NaN.add_nan_l, NaN.mul_nan_l, NaN.add_nan_l, E.
        - apply NaN.add_nan_r, NaN.mul_nan_l, E. }
    rewrite NaN.ltb_nan_l; [reflexivity|].
    apply NaN.mul_nan_l.
    destruct Hc as [E|E].
    + apply NaN.add_nan_l, NaN.mul_nan_l, NaN.sub_nan_l, E.
    + apply NaN.add_nan_r, NaN.mul_nan_l, E.
  - unfold escape_iterations.
    destruct (Z.to_nat max_iter) as [|fuel] eqn:Ef; [simpl; lia|].
    cbn [escape_loop]. cbv zeta. cbn [of_int add sub mul ge binary64].
    replace (PrimFloat.leb (float_of_Z 4)
               (PrimFloat.add (PrimFloat.mul (float_of_Z 0) (float_of_Z 0))
                  (PrimFloat.mul (float_of_Z 0) (float_of_Z 0))))
      with false by reflexivity.
    rewrite (NaN.escape_loop_nan fuel cr ci Hc) by (apply NaN.next_nan, Hc).
    lia.
  - unfold simd_iterations, mm_storeu_pd, mm_setzero_pd, mm_set_pd, mm_set1_pd.
    cbv zeta. cbn [of_int to_int binary64].
    change (Z.to_nat MAX_ITERATIONS) with (S (Z.to_nat 254)).
    assert (Em : mm_cmplt_pd (D := float)
                   (mm_add_pd
                      (mm_mul_pd (float_of_Z 0, float_of_Z 0)
                         (float_of_Z 0, float_of_Z 0))
                      (mm_mul_pd (float_of_Z 0, float_of_Z 0)
                         (float_of_Z 0, float_of_Z 0)))
                   fours = (true, true)) by reflexivity.
    cbn [simd_loop]. cbv zeta. rewrite Em.
    unfold mm_movemask_pd. cbn [fst snd].
    change (1 + 2 =? 0) with false. cbv iota.
    rewrite NaN.simd_loop_nan; [reflexivity | exact Hc | | reflexivity].
    unfold mm_add_pd. cbn [fst]. apply NaN.next_nan, Hc.
Qed.

Lemma nan_coordinate_witness :
  periodicity_check (D := float) PrimFloat.nan 0%float = false
  /\ escape_iterations (D := float) PrimFloat.nan 0%float 255 = Z.max 0 255
  /\ fst (simd_iterations (D := float) PrimFloat.nan 0%float 0%float) = 1.
Proof.
  apply (nan_coordinate PrimFloat.nan 0%float 0%float 255).
  left. reflexivity.
Defined.
